(** * Annotation highlighter and tag grouping: a shallow embedding

    The development follows these source units of the application:

    - the [Highlighter] component (annotation spans over an abstract's text,
      their rendering into display segments, the mapping of a DOM selection
      back to text offsets, and the handlers that write annotation documents);
    - [utils/tag-grouping.ts] (similarity grouping of tag labels with a
      Levenshtein fallback), and the place in [AdminAnalytics] where the
      groups are turned into per-group annotation counts;
    - the [DatabaseManagementModal] that shares a file with the Highlighter
      (deleting a paper with its annotations, clearing the database).

    JavaScript strings are sequences of UTF-16 code units; the parts of the
    code that only slice, compare and count code units are embedded over an
    arbitrary code-unit type [char].  Numbers that hold offsets are [Z]. *)

From Stdlib Require Import ZArith Ascii String Lia.
From stdpp Require Import base tactics option list sorting strings pretty gmap.

#[local] Set Warnings "-register-all,-clear-no-such-hyp".

(** ** Part I: definitions *)

(** *** String.prototype.slice *)

Section JsString.
Context {char : Type}.
Local Open Scope Z_scope.

(** The relative-index rule of [slice]: a negative index counts from the
    end, and the result is clamped to [0, len]. *)
Definition relIndex (len n : Z) : Z :=
  if n <? 0 then Z.max (len + n) 0 else Z.min n len.

(** [s.slice(start, end)] *)
Definition slice (s : list char) (start end_ : Z) : list char :=
  let len := Z.of_nat (length s) in
  let from := relIndex len start in
  let to := relIndex len end_ in
  take (Z.to_nat (Z.max (to - from) 0)) (drop (Z.to_nat from) s).

(** [s.slice(start)]: the end defaults to the length. *)
Definition sliceFrom (s : list char) (start : Z) : list char :=
  slice s start (Z.of_nat (length s)).
End JsString.

(** *** The Highlighter's data *)

Section HighlighterData.
Context {char : Type}.

(** [interface Annotation] (the colour and label fields are filled in for
    display only and play no role below). *)
Record Annotation := mkAnnotation {
  id : string;
  start_index : Z;
  end_index : Z;
  tag_id : string;
  text_content : list char
}.

Inductive SegmentType := text_ | highlight.

(** [interface Segment] local to [renderText]. *)
Record Segment := mkSegment {
  seg_text : list char;
  seg_type : SegmentType;
  seg_id : string;
  seg_tagId : option string
}.
End HighlighterData.

Arguments Annotation : clear implicits.
Arguments Segment : clear implicits.

(** *** renderText: from annotations to display segments *)

Section RenderText.
Context {char : Type}.
Local Open Scope Z_scope.

(** [[...annotations].sort((a, b) => a.start_index - b.start_index)]:
    Array.prototype.sort is stable, so the result is the stable ordering by
    [start_index].  [insertAnn] puts an element in front of the first
    element that does not start before it. *)
Fixpoint insertAnn (a : Annotation char) (l : list (Annotation char))
  : list (Annotation char) :=
  match l with
  | [] => [a]
  | b :: l' =>
      if start_index a <=? start_index b then a :: b :: l'
      else b :: insertAnn a l'
  end.

Definition sortAnns (l : list (Annotation char)) : list (Annotation char) :=
  foldr insertAnn [] l.

(** The template literal [`text-${lastIndex}`]. *)
Definition textId (lastIndex : Z) : string := "text-" +:+ pretty lastIndex.

Definition plainSegment (text : list char) (from to : Z) (lastIndex : Z)
  : Segment char :=
  {| seg_text := slice text from to; seg_type := text_;
     seg_id := textId lastIndex; seg_tagId := None |}.

Definition highlightSegment (text : list char) (from to : Z)
    (ann : Annotation char) : Segment char :=
  {| seg_text := slice text from to; seg_type := highlight;
     seg_id := id ann; seg_tagId := Some (tag_id ann) |}.

(** One turn of [sortedAnns.forEach]; the state is [lastIndex] together
    with the [segments] array, which only ever grows at its end. *)
Definition renderStep (text : list char)
    (st : Z * list (Segment char)) (ann : Annotation char)
  : Z * list (Segment char) :=
  let '(lastIndex, segments) := st in
  let segments :=
    if lastIndex <? start_index ann
    then segments ++ [plainSegment text lastIndex (start_index ann) lastIndex]
    else segments in
  if lastIndex <? end_index ann then
    let start := Z.max (start_index ann) lastIndex in
    let end_ := end_index ann in
    (end_, segments ++ [highlightSegment text start end_ ann])
  else (lastIndex, segments).

(** The segment list that [renderText] builds before mapping it to JSX. *)
Definition renderText (text : list char) (annotations : list (Annotation char))
  : list (Segment char) :=
  let sortedAnns := sortAnns annotations in
  let '(lastIndex, segments) := foldl (renderStep text) (0, []) sortedAnns in
  if lastIndex <? Z.of_nat (length text)
  then segments ++
       [{| seg_text := sliceFrom text lastIndex; seg_type := text_;
           seg_id := textId lastIndex; seg_tagId := None |}]
  else segments.

(** The text shown to the reader: the segments' texts, in order. *)
Definition renderedText (segs : list (Segment char)) : list char :=
  concat (seg_text <$> segs).
End RenderText.

(** *** getAbsoluteOffset: from a DOM position to a text offset *)

Section Dom.
Context {char : Type}.

(** The part of the DOM the tree walker sees: text nodes carrying their
    character data, elements carrying their children.  [nodeKey] stands
    for object identity (what [===] compares). *)
Inductive Node :=
| TextNode (nodeKey : nat) (textContent : list char)
| Element (nodeKey : nat) (childNodes : list Node).

(** Text nodes of a subtree in document order, as (identity, textContent). *)
Fixpoint textNodes (n : Node) : list (nat * list char) :=
  match n with
  | TextNode k s => [(k, s)]
  | Element _ cs => concat (map textNodes cs)
  end.

(** The nodes that successive [walker.nextNode()] calls return for
    [document.createTreeWalker(root, NodeFilter.SHOW_TEXT)]: the text
    nodes below [root] in document order; the root itself is never
    returned. *)
Definition treeWalker (root : Node) : list (nat * list char) :=
  match root with
  | TextNode _ _ => []
  | Element _ cs => concat (map textNodes cs)
  end.

(** The [while (walker.nextNode())] loop, with [currentOffset] threaded. *)
Fixpoint walkOffset (walker : list (nat * list char)) (node : nat)
    (offset currentOffset : Z) : Z :=
  match walker with
  | [] => (-1)%Z
  | currentNode :: rest =>
      if decide (currentNode.1 = node) then (currentOffset + offset)%Z
      else walkOffset rest node offset
             (currentOffset + Z.of_nat (length currentNode.2))%Z
  end.

Definition getAbsoluteOffset (root : Node) (node : nat) (offset : Z) : Z :=
  walkOffset (treeWalker root) node offset 0%Z.

(** Offset in the concatenated text at which the [k]-th walker node
    starts: the lengths of the nodes before it, summed. *)
Definition accumulatedStart (walker : list (nat * list char)) (k : nat) : Z :=
  Z.of_nat (sum_list_with (λ n, length n.2) (take k walker)).
End Dom.

Arguments Node : clear implicits.

(** *** The annotation store and the Highlighter's handlers *)

Section Store.
Context {char : Type}.
Local Open Scope Z_scope.

(** A document of the [annotations] collection.  Timestamps are ISO
    strings; [created_at]/[updated_at] are absent on documents written
    before they were introduced, [deleted_at] is the soft-delete mark. *)
Record AnnotationDoc := mkDoc {
  paper_id : string;
  user_id : string;
  doc_tag_id : string;
  doc_text_content : list char;
  doc_start_index : Z;
  doc_end_index : Z;
  created_at : option string;
  updated_at : option string;
  deleted_at : option string
}.

Inductive FirestoreError := not_found.

(** [addDoc(collection, data)]: the document is stored under a newly
    generated id. *)
Definition addDoc (coll : gmap string AnnotationDoc) (data : AnnotationDoc)
  : gmap string AnnotationDoc :=
  <[fresh (dom coll) := data]> coll.

(** [updateDoc(doc(db, coll, id), fields)]: merges the given fields into an
    existing document, and is rejected with [not-found] when there is no
    document under that id. *)
Definition updateDoc (coll : gmap string AnnotationDoc) (docId : string)
    (fields : AnnotationDoc → AnnotationDoc)
  : FirestoreError + gmap string AnnotationDoc :=
  match coll !! docId with
  | None => inl not_found
  | Some d => inr (<[docId := fields d]> coll)
  end.

(** The [selection] state variable. *)
Record Selection := mkSelection {
  sel_start : Z;
  sel_end : Z;
  sel_text : list char
}.

(** What [handleMouseUp] reads from [window.getSelection()]. *)
Record DomRange := mkRange {
  startContainer : nat;
  startOffset : Z;
  endContainer : nat;
  endOffset : Z;
  (** [container.contains(range.commonAncestorContainer)] *)
  insideContainer : bool
}.

Record DomSelection := mkDomSelection {
  rangeCount : nat;
  isCollapsed : bool;
  getRangeAt0 : DomRange;
  selectionToString : list char
}.

(** Props, state variables and the remote collection the component
    works against. *)
Record Highlighter := mkHighlighter {
  paperId : string;
  text : list char;
  readOnly : bool;
  effectiveUserId : option string;
  isEditing : bool;
  selection : option Selection;
  popoverOpen : bool;
  editMenuOpen : bool;
  selectedAnnotation : option string;
  annotationsColl : gmap string AnnotationDoc
}.

Definition withSelection (h : Highlighter) (s : option Selection)
    (po : bool) : Highlighter :=
  {| paperId := paperId h; text := text h; readOnly := readOnly h;
     effectiveUserId := effectiveUserId h; isEditing := isEditing h;
     selection := s; popoverOpen := po; editMenuOpen := editMenuOpen h;
     selectedAnnotation := selectedAnnotation h;
     annotationsColl := annotationsColl h |}.

Definition withColl (h : Highlighter) (c : gmap string AnnotationDoc)
  : Highlighter :=
  {| paperId := paperId h; text := text h; readOnly := readOnly h;
     effectiveUserId := effectiveUserId h; isEditing := isEditing h;
     selection := selection h; popoverOpen := popoverOpen h;
     editMenuOpen := editMenuOpen h;
     selectedAnnotation := selectedAnnotation h;
     annotationsColl := c |}.

Definition closeEditMenu (h : Highlighter) : Highlighter :=
  {| paperId := paperId h; text := text h; readOnly := readOnly h;
     effectiveUserId := effectiveUserId h; isEditing := isEditing h;
     selection := selection h; popoverOpen := popoverOpen h;
     editMenuOpen := false; selectedAnnotation := None;
     annotationsColl := annotationsColl h |}.

(** The last step of [handleMouseUp]: the two resolved offsets are
    accepted as the pending selection only if neither is [-1] and
    [start < end]; nothing else is checked. *)
Definition acceptOffsets (h : Highlighter) (start end_ : Z)
    (selectedText : list char) : Highlighter :=
  if bool_decide (start ≠ -1) && bool_decide (end_ ≠ -1) && (start <? end_)
  then withSelection h (Some (mkSelection start end_ selectedText)) true
  else h.

(** [handleMouseUp]; [container] is [textRef.current]. *)
Definition handleMouseUp (h : Highlighter) (selectionObj : option DomSelection)
    (container : option (Node char)) : Highlighter :=
  if isEditing h || readOnly h then h else
  match selectionObj with
  | None => withSelection h (selection h) false
  | Some sel =>
      if (rangeCount sel =? 0)%nat || isCollapsed sel
      then withSelection h (selection h) false
      else
        let range := getRangeAt0 sel in
        match container with
        | None => h
        | Some root =>
            if negb (insideContainer range) then h else
            let start :=
              getAbsoluteOffset root (startContainer range) (startOffset range) in
            let end_ :=
              getAbsoluteOffset root (endContainer range) (endOffset range) in
            acceptOffsets h start end_ (selectionToString sel)
        end
  end.

(** [handleAddAnnotation]; [now] is [new Date().toISOString()]. *)
Definition handleAddAnnotation (h : Highlighter) (tagId : string)
    (now : string) : Highlighter :=
  match selection h, effectiveUserId h with
  | Some sel, Some uid =>
      if readOnly h then h else
      let data :=
        {| paper_id := paperId h; user_id := uid; doc_tag_id := tagId;
           doc_text_content := sel_text sel;
           doc_start_index := sel_start sel; doc_end_index := sel_end sel;
           created_at := Some now; updated_at := Some now;
           deleted_at := None |} in
      withSelection (withColl h (addDoc (annotationsColl h) data)) None false
  | _, _ => h
  end.

Definition setDeleted (now : string) (d : AnnotationDoc) : AnnotationDoc :=
  {| paper_id := paper_id d; user_id := user_id d;
     doc_tag_id := doc_tag_id d; doc_text_content := doc_text_content d;
     doc_start_index := doc_start_index d; doc_end_index := doc_end_index d;
     created_at := created_at d; updated_at := updated_at d;
     deleted_at := Some now |}.

Definition setTag (newTagId now : string) (d : AnnotationDoc) : AnnotationDoc :=
  {| paper_id := paper_id d; user_id := user_id d;
     doc_tag_id := newTagId; doc_text_content := doc_text_content d;
     doc_start_index := doc_start_index d; doc_end_index := doc_end_index d;
     created_at := created_at d; updated_at := Some now;
     deleted_at := deleted_at d |}.

(** [handleDeleteAnnotation]: when the awaited [updateDoc] is rejected the
    handler stops there, and the state updates after it are not made. *)
Definition handleDeleteAnnotation (h : Highlighter) (annotationId : string)
    (now : string) : FirestoreError + Highlighter :=
  if isEditing h || readOnly h then inr h else
  match updateDoc (annotationsColl h) annotationId (setDeleted now) with
  | inl e => inl e
  | inr c => inr (closeEditMenu (withColl h c))
  end.

(** [handleChangeTag] *)
Definition handleChangeTag (h : Highlighter) (annotationId newTagId : string)
    (now : string) : FirestoreError + Highlighter :=
  if isEditing h || readOnly h then inr h else
  match updateDoc (annotationsColl h) annotationId (setTag newTagId now) with
  | inl e => inl e
  | inr c => inr (closeEditMenu (withColl h c))
  end.

(** The snapshot listener's view: documents of this paper and user whose
    [deleted_at] is not set. *)
Definition isLive (d : AnnotationDoc) : bool :=
  match deleted_at d with Some _ => false | None => true end.

Definition toAnnotation (kd : string * AnnotationDoc) : Annotation char :=
  {| id := kd.1; start_index := doc_start_index kd.2;
     end_index := doc_end_index kd.2; tag_id := doc_tag_id kd.2;
     text_content := doc_text_content kd.2 |}.

Definition liveAnnotations (h : Highlighter) : list (Annotation char) :=
  toAnnotation <$>
    filter (λ kd, isLive kd.2 = true
                  ∧ paper_id kd.2 = paperId h
                  ∧ Some (user_id kd.2) = effectiveUserId h)
           (map_to_list (annotationsColl h)).
End Store.

Arguments AnnotationDoc : clear implicits.
Arguments Selection : clear implicits.
Arguments Highlighter : clear implicits.

(** *** utils/tag-grouping.ts *)

(** JavaScript arrays used as growable vectors.  Reading a missing index
    yields [undefined] ([None]); assigning at an index below the length
    overwrites, assigning at the length appends.  Assigning past the length
    would leave holes: such arrays are outside this model ([None]). *)
Definition arrayGet {A} (arr : list A) (i : nat) : option A := arr !! i.

Definition arraySet {A} (arr : list A) (i : nat) (v : A) : option (list A) :=
  if decide (i < length arr) then Some (<[i:=v]> arr)
  else if decide (i = length arr) then Some (arr ++ [v])
  else None.

(** [for (let i = ...; i <= ...; i++) body], over the list of values that
    [i] takes. *)
Fixpoint forEach {St} (indices : list nat) (body : nat → St → option St)
    (s : St) : option St :=
  match indices with
  | [] => Some s
  | i :: rest => s' ← body i s; forEach rest body s'
  end.

Section Levenshtein.
Context {char : Type} `{EqDecision char}.

(** [s.charAt(i)]: the code unit at [i], or the empty string ([None]). *)
Definition charAt (s : list char) (i : nat) : option char := s !! i.

(** [matrix[i][j]] *)
Definition matrixGet (matrix : list (list nat)) (i j : nat) : option nat :=
  row ← arrayGet matrix i; arrayGet row j.

(** [matrix[i][j] = v]; the row is shared with the matrix, so the
    assignment is seen through [matrix]. *)
Definition matrixSet (matrix : list (list nat)) (i j v : nat)
  : option (list (list nat)) :=
  row ← arrayGet matrix i;
  row' ← arraySet row j v;
  arraySet matrix i row'.

(** The body of the inner loop. *)
Definition fillCell (a b : list char) (i j : nat) (matrix : list (list nat))
  : option (list (list nat)) :=
  if decide (charAt b (i - 1) = charAt a (j - 1)) then
    v ← matrixGet matrix (i - 1) (j - 1);
    matrixSet matrix i j v
  else
    sub ← matrixGet matrix (i - 1) (j - 1);
    ins ← matrixGet matrix i (j - 1);
    del ← matrixGet matrix (i - 1) j;
    matrixSet matrix i j (Nat.min (sub + 1) (Nat.min (ins + 1) (del + 1))).

(** [levenshteinDistance(a, b)]; [None] would mean that the function read
    an entry that was never written. *)
Definition levenshteinDistance (a b : list char) : option nat :=
  matrix ← forEach (seq 0 (S (length b)))
              (λ i matrix, arraySet matrix i [i]) [];
  matrix ← forEach (seq 0 (S (length a)))
              (λ j matrix, matrixSet matrix 0 j j) matrix;
  matrix ← forEach (seq 1 (length b))
              (λ i matrix,
                 forEach (seq 1 (length a)) (λ j, fillCell a b i j) matrix)
              matrix;
  matrixGet matrix (length b) (length a).
End Levenshtein.

Section TagGrouping.
Local Open Scope Z_scope.

(** [interface TagGroup] *)
Record TagGroup := mkTagGroup {
  name : string;
  tags : list string
}.

(** [toLowerCase] on code units in the ASCII range: A-Z are mapped to
    a-z and every other code unit is kept.  Tag labels outside that
    range are not covered by this model. *)
Definition lowerAscii (c : ascii) : ascii :=
  let n := nat_of_ascii c in
  if (65 <=? n)%nat && (n <=? 90)%nat then ascii_of_nat (n + 32) else c.

Fixpoint toLowerCase (s : string) : string :=
  match s with
  | EmptyString => EmptyString
  | String c s' => String (lowerAscii c) (toLowerCase s')
  end.

(** [s.includes(t)]: [t] occurs in [s] at some position. *)
Fixpoint includes (s t : string) : bool :=
  String.prefix t s ||
  match s with
  | EmptyString => false
  | String _ s' => includes s' t
  end.

(** [[...tags].sort()]: with no comparator the elements are compared as
    strings, code unit by code unit; the sort is stable. *)
Fixpoint insertTag (t : string) (l : list string) : list string :=
  match l with
  | [] => [t]
  | u :: l' => if String.leb t u then t :: u :: l' else u :: insertTag t l'
  end.

Definition sortTags (l : list string) : list string := foldr insertTag [] l.

Definition areTagsSimilar (s1 s2 : string) (threshold : Z) : bool :=
  if String.eqb (toLowerCase s1) (toLowerCase s2) then true
  else if includes (toLowerCase s1) (toLowerCase s2)
          || includes (toLowerCase s2) (toLowerCase s1) then true
  else
    match levenshteinDistance (list_ascii_of_string (toLowerCase s1))
                              (list_ascii_of_string (toLowerCase s2)) with
    | Some dist => Z.of_nat dist <=? threshold
    | None => false
    end.

(** The inner [for (const otherTag of sortedTags)] loop: the state is the
    current group's [tags] array and the [visited] set. *)
Definition collectSimilar (tag : string) (threshold : Z)
    (st : list string * gset string) (otherTag : string)
  : list string * gset string :=
  let '(groupTags, visited) := st in
  if bool_decide (otherTag ∈ visited) then st
  else if areTagsSimilar tag otherTag threshold
       then (groupTags ++ [otherTag], {[otherTag]} ∪ visited)
       else st.

(** The outer [for (const tag of sortedTags)] loop. *)
Definition groupStep (sortedTags : list string) (threshold : Z)
    (st : list TagGroup * gset string) (tag : string)
  : list TagGroup * gset string :=
  let '(groups, visited) := st in
  if bool_decide (tag ∈ visited) then st
  else
    let '(members, visited) :=
      foldl (collectSimilar tag threshold) ([tag], {[tag]} ∪ visited)
            sortedTags in
    (groups ++ [{| name := tag; tags := members |}], visited).

Definition groupTags (tags : list string) (threshold : Z) : list TagGroup :=
  let sortedTags := sortTags tags in
  (foldl (groupStep sortedTags threshold) ([], ∅) sortedTags).1.

(** The default value of the [threshold] parameter. *)
Definition defaultThreshold : Z := 3.
End TagGrouping.

(** *** Edit distance, as a notion of its own

    The following is not taken from the code.  It states what a Levenshtein
    distance is: the least number of single-character insertions, deletions
    and substitutions that turn one string into the other. *)

Section EditDistance.
Context {char : Type}.

Inductive edit1 : list char → list char → Prop :=
| edit_insert l c r : edit1 (l ++ r) (l ++ c :: r)
| edit_delete l c r : edit1 (l ++ c :: r) (l ++ r)
| edit_substitute l c d r : edit1 (l ++ c :: r) (l ++ d :: r).

Inductive edits : nat → list char → list char → Prop :=
| edits_refl s : edits 0 s s
| edits_step n s t u : edit1 s t → edits n t u → edits (S n) s u.

Definition isEditDistance (a b : list char) (d : nat) : Prop :=
  edits d a b ∧ ∀ n, edits n a b → d ≤ n.
End EditDistance.

(** The recurrence that the dynamic-programming table tabulates, read from
    the front of the strings. *)
Section Recurrence.
Context {char : Type} `{EqDecision char}.

Fixpoint lev (s : list char) : list char → nat :=
  fix lev_s (t : list char) : nat :=
    match s, t with
    | [], _ => length t
    | _, [] => length s
    | x :: s', y :: t' =>
        if decide (x = y) then lev s' t'
        else Nat.min (lev s' t' + 1) (Nat.min (lev_s t' + 1) (lev s' t + 1))
    end.
End Recurrence.

(** Segment sequences in which no two neighbours are both plain text. *)
Definition noAdjacentPlain {char} (segs : list (Segment char)) : Prop :=
  ∀ i s1 s2, segs !! i = Some s1 → segs !! S i = Some s2 →
    ¬ (seg_type s1 = text_ ∧ seg_type s2 = text_).

(** Segment sequences that are empty or end with a highlight. *)
Definition endsHighlighted {char} (segs : list (Segment char)) : Prop :=
  ∀ g, last segs = Some g → seg_type g = highlight.

(** An annotation whose offsets satisfy the span invariant for [text]. *)
Definition validSpan {char} (text : list char) (a : Annotation char) : Prop :=
  (0 ≤ start_index a ∧ start_index a < end_index a
   ∧ end_index a ≤ Z.of_nat (length text))%Z.

(** *** The table that [levenshteinDistance] fills

    Entry [(i, j)] is meant to hold the recurrence's value for the first [i]
    characters of [b] and the first [j] characters of [a], both read
    backwards (the loop looks at the last character of each prefix). *)

Section Table.
Context {char : Type} `{EqDecision char} (a b : list char).

Definition cell (i j : nat) : nat :=
  lev (reverse (take i b)) (reverse (take j a)).

Definition tableRow (i width : nat) : list nat := cell i <$> seq 0 width.

(** State between two turns of the outer loop: rows below [i] are
    complete, the others still are the one-element rows of the first loop. *)
Definition rowsDone (i : nat) (matrix : list (list nat)) : Prop :=
  length matrix = S (length b)
  ∧ (∀ r, r < i → matrix !! r = Some (tableRow r (S (length a))))
  ∧ (∀ r, i ≤ r ≤ length b → matrix !! r = Some [r]).

(** State between two turns of the inner loop: row [i] is filled up to
    column [j], excluded. *)
Definition rowInProgress (i j : nat) (matrix : list (list nat)) : Prop :=
  length matrix = S (length b)
  ∧ (∀ r, r < i → matrix !! r = Some (tableRow r (S (length a))))
  ∧ matrix !! i = Some (tableRow i j)
  ∧ (∀ r, i < r ≤ length b → matrix !! r = Some [r]).

(** State of the loop that writes the first row. *)
Definition firstRowInProgress (j : nat) (matrix : list (list nat)) : Prop :=
  length matrix = S (length b)
  ∧ matrix !! 0 = Some (seq 0 (Nat.max j 1))
  ∧ (∀ r, 1 ≤ r ≤ length b → matrix !! r = Some [r]).
End Table.

(** *** Concrete inputs used by the examples *)

Definition chars (s : string) : list ascii := list_ascii_of_string s.

Definition sampleText : list ascii := chars "0123456789".

Definition sampleDoc : AnnotationDoc ascii :=
  {| paper_id := "p1"; user_id := "u1"; doc_tag_id := "tagA";
     doc_text_content := chars "234"; doc_start_index := 2;
     doc_end_index := 5; created_at := Some "t0"; updated_at := Some "t0";
     deleted_at := None |}.

(** A highlighter on a ten-character text with nothing stored and nothing
    selected. *)
Definition emptyHighlighter : Highlighter ascii :=
  {| paperId := "p1"; text := sampleText; readOnly := false;
     effectiveUserId := Some "u1"; isEditing := false; selection := None;
     popoverOpen := false; editMenuOpen := false; selectedAnnotation := None;
     annotationsColl := ∅ |}.

(** The same with one document stored, live or soft-deleted. *)
Definition highlighterWith (d : AnnotationDoc ascii) : Highlighter ascii :=
  withColl emptyHighlighter {["a1" := d]}.

(** *** Notions used to state what groupTags returns *)

(** The order of [sort()] on strings. *)
Definition tagLe (s t : string) : Prop := String.leb s t = true.

(** All member labels of a list of groups, in output order. *)
Definition groupedLabels (groups : list TagGroup) : list string :=
  concat (tags <$> groups).

(** How an earlier group [g1] of the output relates to a later one [g2]:
    its name comes strictly first in the order, and is similar to no member
    of the later group. *)
Definition groupBefore (threshold : Z) (g1 g2 : TagGroup) : Prop :=
  tagLe (name g1) (name g2) ∧ name g1 ≠ name g2
  ∧ ∀ m, m ∈ tags g2 → areTagsSimilar (name g1) m threshold = false.

(** What a group looks like: the name first, then members that are similar
    to the name and do not come before it in the order. *)
Definition groupShape (threshold : Z) (g : TagGroup) : Prop :=
  ∃ rest, tags g = name g :: rest
          ∧ ∀ m, m ∈ rest →
              areTagsSimilar (name g) m threshold = true ∧ tagLe (name g) m.

(** State of the outer loop of [groupTags] once the labels [done] of the
    sorted list have been passed. *)
Definition groupingInv (sortedTags : list string) (threshold : Z)
    (done : list string) (groups : list TagGroup) (visited : gset string)
  : Prop :=
  NoDup (groupedLabels groups)
  ∧ (∀ x, x ∈ visited ↔ x ∈ groupedLabels groups)
  ∧ (∀ x, x ∈ groupedLabels groups → x ∈ sortedTags)
  ∧ (∀ x, x ∈ done → x ∈ visited)
  ∧ Forall (λ g, name g ∈ done ∧ groupShape threshold g) groups
  ∧ (∀ g x, g ∈ groups → x ∈ sortedTags → x ∉ visited →
            areTagsSimilar (name g) x threshold = false)
  ∧ StronglySorted (groupBefore threshold) groups.

(** *** AdminAnalytics: counting annotations per group (local fallback) *)

Section GroupCounts.
Context {char : Type}.

(** [interface Tag] *)
Record Tag := mkTag {
  tagKey : string;
  label : string;
  color : string
}.

(** [Array.from(new Set(xs))]: the distinct elements, each at the place of
    its first occurrence. *)
Definition arrayFromSet (xs : list string) : list string :=
  foldl (λ acc x, if bool_decide (x ∈ acc) then acc else acc ++ [x]) [] xs.

(** [uniqueLabels]; [tagValues] is [Object.values(tags)]. *)
Definition uniqueLabels (tagValues : list Tag) : list string :=
  arrayFromSet (label <$> tagValues).

(** The body of [group.tags.forEach]: the number of annotations whose
    [tag_id] is the id of a tag carrying the label [tagName]. *)
Definition countForLabel (tagValues : list Tag)
    (annotations : list (AnnotationDoc char)) (tagName : string) : nat :=
  let tagIds := tagKey <$> filter (λ t, label t = tagName) tagValues in
  length (filter (λ a, doc_tag_id a ∈ tagIds) annotations).

(** Whether one annotation is counted for a label. *)
Definition countsFor (tagValues : list Tag) (a : AnnotationDoc char)
    (tagName : string) : nat :=
  if decide (doc_tag_id a ∈ tagKey <$> filter (λ t, label t = tagName) tagValues)
  then 1 else 0.

(** An entry of [groupCounts]. *)
Record GroupCount := mkGroupCount {
  gc_name : string;
  gc_value : nat;
  gc_tags : list string
}.

Definition groupCount (tagValues : list Tag)
    (annotations : list (AnnotationDoc char)) (group : TagGroup) : GroupCount :=
  {| gc_name := name group;
     gc_value := foldl (λ count tagName,
                          count + countForLabel tagValues annotations tagName)
                       0 (tags group);
     gc_tags := tags group |}.

(** [groupCounts.sort((a, b) => b.value - a.value)]: stable, by decreasing
    value. *)
Fixpoint insertCount (a : GroupCount) (l : list GroupCount) : list GroupCount :=
  match l with
  | [] => [a]
  | b :: l' =>
      if gc_value b <=? gc_value a then a :: b :: l' else b :: insertCount a l'
  end.

Definition sortCounts (l : list GroupCount) : list GroupCount :=
  foldr insertCount [] l.

(** What [analyzeTags] hands to [setGroupedTags] when it falls back to the
    local grouping. *)
Definition localGroupCounts (tagValues : list Tag)
    (annotations : list (AnnotationDoc char)) : list GroupCount :=
  let groups := groupTags (uniqueLabels tagValues) defaultThreshold in
  sortCounts (groupCount tagValues annotations <$> groups).
End GroupCounts.

(** *** Notions used to state what renderText shows *)

Global Instance SegmentType_eq_dec : EqDecision SegmentType.
Proof. solve_decision. Defined.

Section RenderNotions.
Context {char : Type}.

(** The highlighted segments, as the (key, tag) pairs the JSX reads. *)
Definition highlightKeys (segs : list (Segment char))
  : list (string * option string) :=
  (λ g, (seg_id g, seg_tagId g)) <$> filter (λ g, seg_type g = highlight) segs.

(** Whether annotation [a] covers position [p] of the text. *)
Definition covers (a : Annotation char) (p : Z) : bool :=
  (start_index a <=? p)%Z && (p <? end_index a)%Z.

(** For each character shown, whether it is shown highlighted. *)
Definition highlightMask (segs : list (Segment char)) : list bool :=
  concat ((λ g, replicate (length (seg_text g))
                          (bool_decide (seg_type g = highlight))) <$> segs).

(** For each position below [n], whether some annotation covers it. *)
Definition coveredMask (anns : list (Annotation char)) (n : nat) : list bool :=
  (λ p, existsb (λ a, covers a (Z.of_nat p)) anns) <$> seq 0 n.

(** Annotations given in start order that do not overlap: each one starts
    at or after [from], is non-empty, and the next ones start at or after
    its end. *)
Fixpoint disjointFrom (from : Z) (anns : list (Annotation char)) : Prop :=
  match anns with
  | [] => True
  | a :: rest =>
      (from ≤ start_index a)%Z ∧ (start_index a < end_index a)%Z
      ∧ disjointFrom (end_index a) rest
  end.

(** State of the coverage argument for [renderText]'s loop: [done] are the
    annotations already passed, [from] is the start of the last of them. *)
Definition coverageInv (text : list char) (done : list (Annotation char))
    (from : Z) (st : Z * list (Segment char)) : Prop :=
  (0 ≤ st.1 ∧ st.1 ≤ Z.of_nat (length text))%Z
  ∧ highlightMask st.2 = coveredMask done (Z.to_nat st.1)
  ∧ (∀ a, a ∈ done → (end_index a ≤ st.1)%Z)
  ∧ (∀ p, (from ≤ p)%Z → (p < st.1)%Z →
          existsb (λ a, covers a p) done = true).

(** State of the key argument: plain segments carry [text-n] for some [n]
    below [lastIndex], highlights carry the id of a passed annotation. *)
Definition keysInv (done : list (Annotation char))
    (st : Z * list (Segment char)) : Prop :=
  NoDup (seg_id <$> st.2)
  ∧ Forall (λ g, (∃ n, (n < st.1)%Z ∧ seg_id g = textId n)
                 ∨ seg_id g ∈ id <$> done) st.2.
End RenderNotions.

(** *** The rendered text in the DOM *)

Section RenderedDom.
Context {char : Type}.

(** The JSX of [renderText] gives one [<span>] per segment, whose only
    child is the segment's text; React creates no text node for an empty
    string.  Object identities: 0 for the container, [2 i + 1] for the span
    of segment [i] and [2 i + 2] for its text node. *)
Fixpoint segmentNodes (i : nat) (segs : list (Segment char))
  : list (Node char) :=
  match segs with
  | [] => []
  | g :: rest =>
      Element (2 * i + 1)
        (match seg_text g with
         | [] => []
         | _ => [TextNode (2 * i + 2) (seg_text g)]
         end)
      :: segmentNodes (S i) rest
  end.

(** The [<div ref={textRef}>] holding [{renderText()}]. *)
Definition renderDom (segs : list (Segment char)) : Node char :=
  Element 0 (segmentNodes 0 segs).

(** What the component shows for its current text and live annotations. *)
Definition displayed (h : Highlighter char) : Node char :=
  renderDom (renderText (text h) (liveAnnotations h)).

(** A boundary of a DOM range lies within the node it names. *)
Definition boundaryInNode (root : Node char) (node : nat) (offset : Z) : Prop :=
  ∀ k n, treeWalker root !! k = Some n → n.1 = node →
         (0 ≤ offset ∧ offset ≤ Z.of_nat (length n.2))%Z.

Definition rangeInBounds (root : Node char) (r : DomRange) : Prop :=
  boundaryInNode root (startContainer r) (startOffset r)
  ∧ boundaryInNode root (endContainer r) (endOffset r).

(** User actions on the component.  A mouse-up is handled against what is
    displayed at that moment; in edit mode the text container is not
    rendered. *)
Inductive Event :=
| MouseUp (selectionObj : option (@DomSelection char))
| AddAnnotation (tagId now : string)
| DeleteAnnotation (annotationId now : string)
| ChangeTag (annotationId newTagId now : string).

Definition dispatch (h : Highlighter char) (ev : Event) : Highlighter char :=
  match ev with
  | MouseUp selectionObj =>
      handleMouseUp h selectionObj
        (if isEditing h then None else Some (displayed h))
  | AddAnnotation tagId now => handleAddAnnotation h tagId now
  | DeleteAnnotation annotationId now =>
      match handleDeleteAnnotation h annotationId now with
      | inl _ => h
      | inr h' => h'
      end
  | ChangeTag annotationId newTagId now =>
      match handleChangeTag h annotationId newTagId now with
      | inl _ => h
      | inr h' => h'
      end
  end.

(** The ranges of the mouse-ups in a sequence of events are within the
    nodes displayed when they happen. *)
Fixpoint rangesInBounds (h : Highlighter char) (evs : list Event) : Prop :=
  match evs with
  | [] => True
  | ev :: rest =>
      match ev with
      | MouseUp (Some sel) => rangeInBounds (displayed h) (getRangeAt0 sel)
      | _ => True
      end
      ∧ rangesInBounds (dispatch h ev) rest
  end.

(** The documents of this paper and user all lie within the text, and so
    does the pending selection. *)
Definition spansInText (h : Highlighter char) : Prop :=
  (∀ k d, annotationsColl h !! k = Some d →
          paper_id d = paperId h → Some (user_id d) = effectiveUserId h →
          (0 ≤ doc_start_index d ∧ doc_start_index d < doc_end_index d
           ∧ doc_end_index d ≤ Z.of_nat (length (text h)))%Z)
  ∧ (∀ sel, selection h = Some sel →
            (0 ≤ sel_start sel ∧ sel_start sel < sel_end sel
             ∧ sel_end sel ≤ Z.of_nat (length (text h)))%Z).
End RenderedDom.

(** *** DatabaseManagementModal *)

Section DatabaseManagement.
Context {char : Type}.

(** [interface Paper] *)
Record Paper := mkPaper {
  paperKey : string;
  title : string;
  paperUser : string;
  paperCreated : option string
}.

(** The two collections the modal works on. *)
Record Database := mkDatabase {
  papersColl : gmap string Paper;
  annotationsOf : gmap string (AnnotationDoc char)
}.

(** [batch.commit()] for a batch of deletions in [annotations] and
    [papers]: all of them are applied, or, when the batch holds more
    operations than the store accepts in one batch, none. *)
Definition commitDeletes (batchLimit : nat) (db : Database)
    (paperIds annotationIds : list string) : option Database :=
  if decide (length paperIds + length annotationIds ≤ batchLimit) then
    Some {| papersColl := foldr delete (papersColl db) paperIds;
            annotationsOf := foldr delete (annotationsOf db) annotationIds |}
  else None.

(** The [alert(...)] calls: success, failure, and the warning that a batch
    holds more than 500 operations. *)
Inductive Alert := alertSuccess | alertFailure | alertTooMany | noAlert.

(** [handleDeletePaper]; [confirmed] is the answer to [confirm(...)]. *)
Definition handleDeletePaper (batchLimit : nat) (db : Database)
    (paperId : string) (confirmed : bool) : Database * Alert :=
  if negb confirmed then (db, noAlert) else
  let db1 := {| papersColl := delete paperId (papersColl db);
                annotationsOf := annotationsOf db |} in
  let toDelete :=
    (filter (λ kd, paper_id kd.2 = paperId)
            (map_to_list (annotationsOf db1))).*1 in
  if decide (0 < length toDelete) then
    match commitDeletes batchLimit db1 [] toDelete with
    | Some db2 => (db2, alertSuccess)
    | None => (db1, alertFailure)
    end
  else (db1, alertSuccess).

(** [handleNukeDatabase]; [papers] is the modal's prop, [input] the answer
    to [prompt(...)] ([None] when the prompt is dismissed). *)
Definition handleNukeDatabase (batchLimit : nat) (db : Database)
    (papers : list Paper) (input : option string) : Database * list Alert :=
  if bool_decide (input = Some "DELETE ALL DATA") then
    let paperIds := paperKey <$> papers in
    let annotationIds := (map_to_list (annotationsOf db)).*1 in
    let opCount := length paperIds + length annotationIds in
    let warning := if 500 <? opCount then [alertTooMany] else [] in
    match commitDeletes batchLimit db paperIds annotationIds with
    | Some db' => (db', warning ++ [alertSuccess])
    | None => (db, warning ++ [alertFailure])
    end
  else (db, []).
End DatabaseManagement.

Arguments Database : clear implicits.

(** *** Further concrete inputs used by the examples *)

Definition sampleAnns : list (Annotation ascii) :=
  [ mkAnnotation "a" 2 4 "tagA" (chars "23");
    mkAnnotation "b" 6 8 "tagB" (chars "67") ].

Definition overlappingAnns : list (Annotation ascii) :=
  [ mkAnnotation "a" 0 5 "tagA" (chars "01234");
    mkAnnotation "b" 3 8 "tagB" (chars "34567") ].

Definition sampleTags : list Tag :=
  [ mkTag "t1" "Method" "#ff0000"; mkTag "t2" "Methods" "#00ff00";
    mkTag "t3" "Result" "#0000ff" ].

Definition docWithTag (tagId : string) : AnnotationDoc ascii :=
  {| paper_id := "p1"; user_id := "u1"; doc_tag_id := tagId;
     doc_text_content := chars "234"; doc_start_index := 2;
     doc_end_index := 5; created_at := Some "t0"; updated_at := Some "t0";
     deleted_at := None |}.

Definition readOnlyHighlighter : Highlighter ascii :=
  {| paperId := "p1"; text := sampleText; readOnly := true;
     effectiveUserId := Some "u1"; isEditing := false; selection := None;
     popoverOpen := false; editMenuOpen := false; selectedAnnotation := None;
     annotationsColl := ∅ |}.

Definition sampleSelection : Selection ascii := mkSelection 2 5 (chars "234").

Definition selectingHighlighter : Highlighter ascii :=
  withSelection emptyHighlighter (Some sampleSelection) true.

(** A selection from offset 2 to offset 5 of the only text node shown by
    [emptyHighlighter]. *)
Definition sampleDomSelection : @DomSelection ascii :=
  {| rangeCount := 1; isCollapsed := false;
     getRangeAt0 := {| startContainer := 2; startOffset := 2;
                       endContainer := 2; endOffset := 5;
                       insideContainer := true |};
     selectionToString := chars "234" |}.

Definition sampleEvents : list (@Event ascii) :=
  [ MouseUp (Some sampleDomSelection); AddAnnotation "tagA" "t1";
    ChangeTag "missing" "tagB" "t2" ].

Definition sampleDatabase : Database ascii :=
  {| papersColl := {[ "p1" := mkPaper "p1" "First" "u1" None ]};
     annotationsOf := {[ "a1" := sampleDoc ]} |}.

(** ** Part II: properties *)

(** *** slice on non-negative indices *)

Section SliceFacts.
Context {char : Type}.
Implicit Types s : list char.
Local Open Scope Z_scope.

Lemma slice_nonneg s a b :
  0 ≤ a → 0 ≤ b →
  slice s a b = drop (Z.to_nat a) (take (Z.to_nat b) s).
Proof.
  intros Ha Hb. unfold slice, relIndex.
  rewrite !(proj2 (Z.ltb_ge _ _)) by lia.
  set (n := length s).
  replace (Z.to_nat (Z.min a (Z.of_nat n))) with (Nat.min (Z.to_nat a) n) by lia.
  replace (Z.to_nat (Z.max (Z.min b (Z.of_nat n) - Z.min a (Z.of_nat n)) 0))
    with (Nat.min (Z.to_nat b) n - Nat.min (Z.to_nat a) n)%nat by lia.
  generalize (Z.to_nat a) (Z.to_nat b). clear a b Ha Hb. intros a b.
  rewrite take_drop_commute.
  destruct (decide (n ≤ a)%nat) as [Hna|Hna].
  - rewrite !drop_ge; [done| |]; rewrite length_take; fold n; lia.
  - replace (Nat.min a n) with a by lia.
    destruct (decide (b ≤ a)%nat) as [Hba|Hba].
    + rewrite !drop_ge; [done| |]; rewrite length_take; fold n; lia.
    + replace (a + (Nat.min b n - a))%nat with (Nat.min b n) by lia.
      f_equal. destruct (decide (b ≤ n)%nat).
      * by replace (Nat.min b n) with b by lia.
      * rewrite !take_ge; [done|fold n; lia|fold n; lia].
Qed.

Lemma slice_empty s a : 0 ≤ a → slice s a a = [].
Proof.
  intros Ha. rewrite slice_nonneg by lia.
  apply drop_ge. rewrite length_take. lia.
Qed.

Lemma slice_app s a b c :
  0 ≤ a → a ≤ b → b ≤ c → slice s a b ++ slice s b c = slice s a c.
Proof.
  intros Ha Hab Hbc. rewrite !slice_nonneg by lia.
  assert (Hab' : (Z.to_nat a ≤ Z.to_nat b)%nat) by lia.
  assert (Hbc' : (Z.to_nat b ≤ Z.to_nat c)%nat) by lia.
  generalize dependent (Z.to_nat c). generalize dependent (Z.to_nat b).
  generalize (Z.to_nat a). clear. intros a b Hab c Hbc.
  rewrite <- (take_drop b (take c s)) at 2.
  rewrite take_take, drop_app, length_take.
  replace (Nat.min b c) with b by lia.
  f_equal. destruct (decide (b ≤ length s)%nat).
  - by replace (a - Nat.min b (length s))%nat with 0%nat by lia.
  - rewrite !drop_ge; [done|simpl; lia|rewrite length_take; lia].
Qed.

Lemma slice_all s b : Z.of_nat (length s) ≤ b → slice s 0 b = s.
Proof.
  intros Hb. rewrite slice_nonneg by lia. simpl.
  apply take_ge. lia.
Qed.
End SliceFacts.

(** *** renderText *)

Section RenderFacts.
Context {char : Type}.
Implicit Types (text : list char) (ann : Annotation char).
Implicit Types (anns : list (Annotation char)) (segs : list (Segment char)).
Local Open Scope Z_scope.

(** The sort only reorders. *)
Lemma insertAnn_perm ann anns : insertAnn ann anns ≡ₚ ann :: anns.
Proof.
  induction anns as [|b anns IH]; simpl; [done|].
  case_match; [done|]. rewrite IH. apply Permutation_swap.
Qed.

Lemma sortAnns_perm anns : sortAnns anns ≡ₚ anns.
Proof.
  induction anns as [|a anns IH]; simpl; [done|].
  rewrite insertAnn_perm. by f_equiv.
Qed.

Lemma sortAnns_Forall (P : Annotation char → Prop) anns :
  Forall P anns → Forall P (sortAnns anns).
Proof. intros H. by rewrite sortAnns_perm. Qed.

Lemma renderedText_snoc segs (g : Segment char) :
  renderedText (segs ++ [g]) = renderedText segs ++ seg_text g.
Proof.
  unfold renderedText. rewrite fmap_app, concat_app. simpl.
  by rewrite app_nil_r.
Qed.

(** One annotation extends the rendered prefix from [lastIndex] to the new
    [lastIndex]. *)
Lemma renderStep_text text lastIndex segs ann :
  0 ≤ lastIndex → start_index ann ≤ end_index ann →
  ∀ st, renderStep text (lastIndex, segs) ann = st →
  lastIndex ≤ st.1 ∧
  renderedText st.2 = renderedText segs ++ slice text lastIndex st.1.
Proof.
  intros Hl Hse st <-. unfold renderStep.
  destruct (Z.ltb_spec lastIndex (start_index ann)) as [Hs|Hs];
    destruct (Z.ltb_spec lastIndex (end_index ann)) as [He|He];
    simpl; try (exfalso; lia).
  - split; [lia|]. rewrite !renderedText_snoc. simpl.
    rewrite Z.max_l by lia.
    rewrite <- app_assoc. f_equal. apply slice_app; lia.
  - split; [lia|]. rewrite renderedText_snoc. simpl.
    by rewrite Z.max_r by lia.
  - split; [lia|]. by rewrite slice_empty, app_nil_r.
Qed.

(** The overlap policy: an annotation that ends at or before [lastIndex]
    pushes no segment and leaves [lastIndex] where it is. *)
Lemma renderStep_absorbed text lastIndex segs ann :
  start_index ann ≤ end_index ann → end_index ann ≤ lastIndex →
  renderStep text (lastIndex, segs) ann = (lastIndex, segs).
Proof.
  intros Hse Hel. unfold renderStep.
  rewrite (proj2 (Z.ltb_ge lastIndex (start_index ann))) by lia.
  by rewrite (proj2 (Z.ltb_ge lastIndex (end_index ann))) by lia.
Qed.

Lemma renderLoop_text text anns : ∀ lastIndex segs,
  0 ≤ lastIndex →
  Forall (λ ann, start_index ann ≤ end_index ann) anns →
  ∀ st, foldl (renderStep text) (lastIndex, segs) anns = st →
  lastIndex ≤ st.1 ∧
  renderedText st.2 = renderedText segs ++ slice text lastIndex st.1.
Proof.
  induction anns as [|ann anns IH]; intros lastIndex segs Hl Hall st <-;
    cbn [foldl fst snd].
  - split; [lia|]. by rewrite slice_empty, app_nil_r.
  - inversion_clear Hall as [|? ? Hann Hrest].
    destruct (renderStep text (lastIndex, segs) ann) as [l1 segs1] eqn:E.
    destruct (renderStep_text text lastIndex segs ann Hl Hann _ E)
      as [Hle Hstep]. simpl in Hle, Hstep.
    destruct (IH l1 segs1 ltac:(lia) Hrest _ eq_refl) as [Hle' Hloop].
    split; [lia|]. rewrite Hloop, Hstep, <- app_assoc. f_equal.
    apply slice_app; lia.
Qed.

(** The round trip, for every annotation list whose members merely have
    [start_index ≤ end_index]. *)
Lemma renderText_roundtrip text anns :
  Forall (λ ann, start_index ann ≤ end_index ann) anns →
  renderedText (renderText text anns) = text.
Proof.
  intros Hall. unfold renderText.
  destruct (foldl _ _ _) as [lastIndex segs] eqn:E.
  destruct (renderLoop_text text (sortAnns anns) 0 [] ltac:(lia)
              (sortAnns_Forall _ _ Hall) _ E) as [Hle Hloop].
  simpl in Hle, Hloop.
  destruct (Z.ltb_spec lastIndex (Z.of_nat (length text))) as [Hlt|Hge].
  - rewrite renderedText_snoc, Hloop. simpl. unfold sliceFrom.
    rewrite slice_app by lia. apply slice_all. lia.
  - rewrite Hloop. simpl. apply slice_all. lia.
Qed.

Lemma noAdjacentPlain_snoc_any segs (g : Segment char) :
  noAdjacentPlain segs → endsHighlighted segs →
  noAdjacentPlain (segs ++ [g]).
Proof.
  intros Hno Hend i s1 s2 H1 H2 [T1 T2].
  destruct (decide (S i < length segs)%nat) as [Hlt|Hge].
  - rewrite lookup_app_l in H1 by lia. rewrite lookup_app_l in H2 by lia.
    by apply (Hno i s1 s2).
  - apply lookup_lt_Some in H2 as Hlen. rewrite length_app in Hlen.
    simpl in Hlen. assert (S i = length segs) as Hi by lia.
    rewrite lookup_app_l in H1 by lia.
    assert (last segs = Some s1) as Hlast.
    { rewrite last_lookup. rewrite <- Hi. simpl. done. }
    specialize (Hend s1 Hlast). congruence.
Qed.

Lemma noAdjacentPlain_snoc_highlight segs (g : Segment char) :
  noAdjacentPlain segs → seg_type g = highlight →
  noAdjacentPlain (segs ++ [g]) ∧ endsHighlighted (segs ++ [g]).
Proof.
  intros Hno Hg. split.
  - intros i s1 s2 H1 H2 [T1 T2].
    destruct (decide (S i < length segs)%nat) as [Hlt|Hge].
    + rewrite lookup_app_l in H1 by lia. rewrite lookup_app_l in H2 by lia.
      by apply (Hno i s1 s2).
    + apply lookup_lt_Some in H2 as Hlen. rewrite length_app in Hlen.
      simpl in Hlen. assert (S i = length segs) as Hi by lia.
      rewrite Hi, lookup_app_r in H2 by lia.
      rewrite Nat.sub_diag in H2. simpl in H2. congruence.
  - intros g'. rewrite last_snoc. congruence.
Qed.

Lemma renderStep_adjacent text lastIndex segs ann :
  start_index ann ≤ end_index ann →
  noAdjacentPlain segs → endsHighlighted segs →
  ∀ st, renderStep text (lastIndex, segs) ann = st →
  noAdjacentPlain st.2 ∧ endsHighlighted st.2.
Proof.
  intros Hse Hno Hend st <-. unfold renderStep.
  destruct (Z.ltb_spec lastIndex (start_index ann)) as [Hs|Hs];
    destruct (Z.ltb_spec lastIndex (end_index ann)) as [He|He];
    simpl; try (exfalso; lia); try done.
  - apply noAdjacentPlain_snoc_highlight; [|done].
    by apply noAdjacentPlain_snoc_any.
  - by apply noAdjacentPlain_snoc_highlight.
Qed.

Lemma renderLoop_adjacent text anns : ∀ lastIndex segs,
  Forall (λ ann, start_index ann ≤ end_index ann) anns →
  noAdjacentPlain segs → endsHighlighted segs →
  ∀ st, foldl (renderStep text) (lastIndex, segs) anns = st →
  noAdjacentPlain st.2 ∧ endsHighlighted st.2.
Proof.
  induction anns as [|ann anns IH]; intros lastIndex segs Hall Hno Hend st <-;
    cbn [foldl fst snd]; [done|].
  inversion_clear Hall as [|? ? Hann Hrest].
  destruct (renderStep text (lastIndex, segs) ann) as [l1 segs1] eqn:E.
  destruct (renderStep_adjacent text lastIndex segs ann Hann Hno Hend _ E)
    as [Hno1 Hend1].
  by eapply IH.
Qed.

Lemma renderText_adjacent text anns :
  Forall (λ ann, start_index ann ≤ end_index ann) anns →
  noAdjacentPlain (renderText text anns).
Proof.
  intros Hall. unfold renderText.
  destruct (foldl _ _ _) as [lastIndex segs] eqn:E.
  destruct (renderLoop_adjacent text (sortAnns anns) 0 []
              (sortAnns_Forall _ _ Hall)) with (st := (lastIndex, segs))
    as [Hno Hend]; [| |done|].
  - intros i s1 s2 H1. by rewrite lookup_nil in H1.
  - intros g Hg. done.
  - case_match; [|done]. by apply noAdjacentPlain_snoc_any.
Qed.

Lemma validSpan_ordered text ann :
  validSpan text ann → start_index ann ≤ end_index ann.
Proof. unfold validSpan. lia. Qed.

(** C1: for a text and spans that all satisfy
    [0 ≤ start < end ≤ length text], the texts of the segments that
    [renderText] produces concatenate, in order, to the text itself. *)
Theorem renderText_concat_valid text anns :
  Forall (validSpan text) anns →
  concat (seg_text <$> renderText text anns) = text.
Proof.
  intros Hall. apply renderText_roundtrip.
  eapply Forall_impl; [exact Hall|]. apply validSpan_ordered.
Qed.

(** C6: for a text and spans that all satisfy
    [0 ≤ start < end ≤ length text], no two neighbouring segments of
    [renderText]'s output are both plain text. *)
Theorem renderText_no_adjacent_plain text anns :
  Forall (validSpan text) anns →
  ∀ i s1 s2,
    renderText text anns !! i = Some s1 →
    renderText text anns !! S i = Some s2 →
    ¬ (seg_type s1 = text_ ∧ seg_type s2 = text_).
Proof.
  intros Hall. apply renderText_adjacent.
  eapply Forall_impl; [exact Hall|]. apply validSpan_ordered.
Qed.

(** C10: [renderText] is a total function, and the round trip needs less
    than the span invariant: whenever every annotation has
    [start_index ≤ end_index], with [end_index] possibly beyond the text
    and [start_index] possibly negative, it produces a segment list whose
    texts still concatenate to the text ([slice] clamps at the length, and
    [lastIndex] never goes below 0). *)
Theorem renderText_concat_unbounded text anns :
  Forall (λ ann, start_index ann ≤ end_index ann) anns →
  (∃ segs, renderText text anns = segs
           ∧ concat (seg_text <$> segs) = text).
Proof.
  intros Hall. eexists. split; [done|]. by apply renderText_roundtrip.
Qed.
End RenderFacts.

Section NestedSpan.
Context {char : Type}.
Local Open Scope Z_scope.

(** C2: for the spans [{0, 10, tagA}] and [{5, 8, tagB}], given in start
    order, [renderText] yields exactly one highlighted segment, the one of
    the first span over [0, 10); the nested second span yields no segment.
    On a text of ten characters that segment is the whole output; on a
    longer text it is followed by the plain remainder only. *)
Theorem renderText_nested_span_absorbed
    (text : list char) (idA idB tagA tagB : string) (cA cB : list char) :
  let spanA := mkAnnotation idA 0 10 tagA cA in
  let spanB := mkAnnotation idB 5 8 tagB cB in
  sortAnns [spanA; spanB] = [spanA; spanB]
  ∧ renderText text [spanA; spanB] =
      highlightSegment text 0 10 spanA ::
      (if 10 <? Z.of_nat (length text)
       then [mkSegment (sliceFrom text 10) text_ (textId 10) None]
       else [])
  ∧ (∀ c0 c1 c2 c3 c4 c5 c6 c7 c8 c9 : char,
       let text10 := [c0; c1; c2; c3; c4; c5; c6; c7; c8; c9] in
       renderText text10 [spanA; spanB] =
         [mkSegment text10 highlight idA (Some tagA)]).
Proof.
  intros spanA spanB. split; [done|]. split.
  - unfold renderText.
    change (sortAnns [spanA; spanB]) with [spanA; spanB].
    change (foldl (renderStep text) (0, []) [spanA; spanB])
      with (10, [highlightSegment text 0 10 spanA]).
    cbv beta iota. by destruct (10 <? Z.of_nat (length text)).
  - done.
Qed.
End NestedSpan.

(** *** getAbsoluteOffset *)

Section OffsetFacts.
Context {char : Type}.
Implicit Types walker : list (nat * list char).
Local Open Scope Z_scope.

Lemma accumulatedStart_0 walker : accumulatedStart walker 0 = 0.
Proof. done. Qed.

Lemma accumulatedStart_S (n : nat * list char) walker k :
  accumulatedStart (n :: walker) (S k) =
  Z.of_nat (length n.2) + accumulatedStart walker k.
Proof. unfold accumulatedStart. simpl. lia. Qed.

(** The loop returns where the first occurrence of [node] starts, plus
    [offset], whatever [offset] is. *)
Lemma walkOffset_found walker node offset : ∀ k n currentOffset,
  walker !! k = Some n → n.1 = node →
  (∀ j m, (j < k)%nat → walker !! j = Some m → m.1 ≠ node) →
  walkOffset walker node offset currentOffset =
  currentOffset + accumulatedStart walker k + offset.
Proof.
  induction walker as [|c walker IH]; intros k n cur Hk Hn Hfirst.
  - by rewrite lookup_nil in Hk.
  - simpl. destruct k as [|k].
    + simpl in Hk. injection Hk as ->.
      rewrite decide_True by done. rewrite accumulatedStart_0. lia.
    + rewrite decide_False by (apply (Hfirst 0%nat c); [lia|done]).
      rewrite (IH k n); [|done|done|].
      * rewrite accumulatedStart_S. lia.
      * intros j m Hj Hm. apply (Hfirst (S j) m); [lia|done].
Qed.

Lemma walkOffset_missing walker node offset : ∀ currentOffset,
  (∀ n, n ∈ walker → n.1 ≠ node) →
  walkOffset walker node offset currentOffset = -1.
Proof.
  induction walker as [|c walker IH]; intros cur Hnone; simpl; [done|].
  rewrite decide_False by (apply Hnone; left).
  apply IH. intros n Hn. apply Hnone. by right.
Qed.

Lemma accumulatedStart_bound walker k (n : nat * list char) :
  walker !! k = Some n →
  accumulatedStart walker k + Z.of_nat (length n.2)
  ≤ Z.of_nat (sum_list_with (λ n, length n.2) walker).
Proof.
  revert k. induction walker as [|c walker IH]; intros k Hk.
  - by rewrite lookup_nil in Hk.
  - destruct k as [|k]; simpl in Hk.
    + injection Hk as ->. rewrite accumulatedStart_0. simpl. lia.
    + rewrite accumulatedStart_S. specialize (IH k Hk). simpl. lia.
Qed.

(** C3 (as the code has it): when the referenced text node is among the
    nodes below the root, [getAbsoluteOffset] returns the offset at which
    that node starts in the concatenated text plus the local offset, for
    every local offset, with no comparison against the node's length;
    when the node is not among them it returns [-1]. *)
Theorem getAbsoluteOffset_resolves (root : Node char) (node : nat) (offset : Z) :
  (∀ k n,
     treeWalker root !! k = Some n → n.1 = node →
     (∀ j m, (j < k)%nat → treeWalker root !! j = Some m → m.1 ≠ node) →
     getAbsoluteOffset root node offset =
     accumulatedStart (treeWalker root) k + offset)
  ∧ ((∀ n, n ∈ treeWalker root → n.1 ≠ node) →
     getAbsoluteOffset root node offset = -1).
Proof.
  split.
  - intros k n Hk Hn Hfirst. unfold getAbsoluteOffset.
    by rewrite (walkOffset_found _ _ _ k n 0 Hk Hn Hfirst).
  - intros Hnone. by apply walkOffset_missing.
Qed.

(** For the offsets a DOM range can carry (between 0 and the node's
    length) the result lies within the rendered text. *)
Lemma getAbsoluteOffset_in_text (root : Node char) node offset k n :
  treeWalker root !! k = Some n → n.1 = node →
  (∀ j m, (j < k)%nat → treeWalker root !! j = Some m → m.1 ≠ node) →
  0 ≤ offset ≤ Z.of_nat (length n.2) →
  0 ≤ getAbsoluteOffset root node offset
    ≤ Z.of_nat (sum_list_with (λ n, length n.2) (treeWalker root)).
Proof.
  intros Hk Hn Hfirst Hoff. unfold getAbsoluteOffset.
  rewrite (walkOffset_found _ _ _ k n 0 Hk Hn Hfirst).
  pose proof (accumulatedStart_bound _ _ _ Hk).
  unfold accumulatedStart in *. lia.
Qed.
End OffsetFacts.

(** The bounds check the resolver does not make: a local offset beyond the
    node's length is added like any other. *)
Lemma getAbsoluteOffset_no_bounds_check :
  ¬ (∀ (root : Node ascii) (node : nat) (offset : Z) k n,
       treeWalker root !! k = Some n → n.1 = node →
       (Z.of_nat (length n.2) < offset)%Z →
       getAbsoluteOffset root node offset = (-1)%Z).
Proof.
  intros H.
  specialize (H (Element 0 [Element 1 [TextNode 2 ["a"; "b"]%char];
                            Element 3 [TextNode 4 ["c"; "d"]%char]])
                4%nat 7%Z 1%nat (4%nat, ["c"; "d"]%char)
                eq_refl eq_refl ltac:(simpl; lia)).
  vm_compute in H. discriminate H.
Qed.

Lemma getAbsoluteOffset_resolves_witness :
  getAbsoluteOffset (Element 0 [Element 1 [TextNode 2 ["a"; "b"]%char];
                                Element 3 [TextNode 4 ["c"; "d"]%char]])
                    4%nat 1%Z = 3%Z
  ∧ getAbsoluteOffset (Element 0 [Element 1 [TextNode 2 ["a"; "b"]%char]])
                      9%nat 1%Z = (-1)%Z.
Proof.
  split.
  - apply (proj1 (getAbsoluteOffset_resolves
             (Element 0 [Element 1 [TextNode 2 ["a"; "b"]%char];
                         Element 3 [TextNode 4 ["c"; "d"]%char]]) 4%nat 1%Z)
             1%nat (4%nat, ["c"; "d"]%char) eq_refl eq_refl).
    intros j m Hj Hm. destruct j as [|j]; [|lia].
    simpl in Hm. injection Hm as <-. simpl. lia.
  - apply (proj2 (getAbsoluteOffset_resolves
             (Element 0 [Element 1 [TextNode 2 ["a"; "b"]%char]]) 9%nat 1%Z)).
    intros n Hn. simpl in Hn. apply list_elem_of_singleton in Hn as ->.
    simpl. lia.
Defined.

(** *** The handlers that write annotation documents *)

Section StoreFacts.
Context {char : Type}.
Implicit Types (h : Highlighter char) (d : AnnotationDoc char).
Local Open Scope Z_scope.

Lemma acceptOffsets_rejects h start end_ selectedText :
  end_ ≤ start ∨ start = -1 ∨ end_ = -1 →
  acceptOffsets h start end_ selectedText = h.
Proof.
  intros Hbad. unfold acceptOffsets.
  destruct (bool_decide_reflect (start ≠ -1)) as [Hs|Hs]; [|done].
  destruct (bool_decide_reflect (end_ ≠ -1)) as [He|He]; [|done].
  destruct (Z.ltb_spec start end_) as [Hlt|Hge]; [|done].
  exfalso. lia.
Qed.

Lemma handleAddAnnotation_no_selection h tagId now :
  selection h = None → handleAddAnnotation h tagId now = h.
Proof. intros Hsel. unfold handleAddAnnotation. by rewrite Hsel. Qed.

(** [handleMouseUp] never writes to the collection, and a selection it
    sets has [start < end] with neither offset [-1]. *)
Lemma handleMouseUp_selection h selectionObj container :
  let h' := handleMouseUp h selectionObj container in
  annotationsColl h' = annotationsColl h
  ∧ (selection h' = selection h
     ∨ ∃ sel, selection h' = Some sel
              ∧ sel_start sel < sel_end sel
              ∧ sel_start sel ≠ -1 ∧ sel_end sel ≠ -1).
Proof.
  unfold handleMouseUp.
  destruct (isEditing h || readOnly h); [by split; [|left]|].
  destruct selectionObj as [sel|]; [|by split; [|left]].
  destruct (_ || _); [by split; [|left]|].
  destruct container as [root|]; [|by split; [|left]].
  destruct (negb _); [by split; [|left]|].
  unfold acceptOffsets.
  destruct (bool_decide_reflect
              (getAbsoluteOffset root (startContainer (getRangeAt0 sel))
                 (startOffset (getRangeAt0 sel)) ≠ -1)) as [Hs|Hs];
    [|by split; [|left]].
  destruct (bool_decide_reflect
              (getAbsoluteOffset root (endContainer (getRangeAt0 sel))
                 (endOffset (getRangeAt0 sel)) ≠ -1)) as [He|He];
    [|by split; [|left]].
  destruct (Z.ltb_spec
              (getAbsoluteOffset root (startContainer (getRangeAt0 sel))
                 (startOffset (getRangeAt0 sel)))
              (getAbsoluteOffset root (endContainer (getRangeAt0 sel))
                 (endOffset (getRangeAt0 sel)))) as [Hlt|Hge];
    [|by split; [|left]].
  simpl. split; [done|]. right. eexists. by split.
Qed.

(** What [handleAddAnnotation] stores is the pending selection. *)
Lemma handleAddAnnotation_stores h tagId now k d :
  annotationsColl (handleAddAnnotation h tagId now) !! k = Some d →
  annotationsColl h !! k = Some d
  ∨ ∃ sel, selection h = Some sel
           ∧ doc_start_index d = sel_start sel
           ∧ doc_end_index d = sel_end sel
           ∧ doc_tag_id d = tagId ∧ deleted_at d = None.
Proof.
  unfold handleAddAnnotation.
  destruct (selection h) as [sel|]; [|by left].
  destruct (effectiveUserId h) as [uid|]; [|by left].
  destruct (readOnly h); [by left|].
  simpl. unfold addDoc. intros Hk.
  apply lookup_insert_Some in Hk as [[_ <-]|[_ Hk]]; [|by left].
  right. by exists sel.
Qed.

(** The live annotations of a store whose documents all have
    [start_index ≤ end_index] render back to the text. *)
Lemma renderText_live_roundtrip h :
  (∀ k d, annotationsColl h !! k = Some d →
          doc_start_index d ≤ doc_end_index d) →
  renderedText (renderText (text h) (liveAnnotations h)) = text h.
Proof.
  intros Hdocs. apply renderText_roundtrip.
  unfold liveAnnotations. apply Forall_fmap, Forall_forall.
  intros [k d] Hkd. apply list_elem_of_filter in Hkd as [_ Hkd].
  apply elem_of_map_to_list in Hkd. simpl. by eapply Hdocs.
Qed.

(** C4 (as the code has it): a pair of offsets with [start ≥ end], or with
    either offset equal to the resolver's [-1], is not accepted as a
    selection: the component is left as it was, and, no selection being
    pending, choosing a tag afterwards stores nothing.  In particular
    [start = end] is rejected.  The offsets are not compared with the
    length of the text. *)
Theorem acceptOffsets_invalid_range h start end_ selectedText :
  end_ ≤ start ∨ start = -1 ∨ end_ = -1 →
  acceptOffsets h start end_ selectedText = h
  ∧ (selection h = None →
     ∀ tagId now,
       handleAddAnnotation (acceptOffsets h start end_ selectedText) tagId now
       = h).
Proof.
  intros Hbad. rewrite acceptOffsets_rejects by done.
  split; [done|]. intros Hsel tagId now.
  by apply handleAddAnnotation_no_selection.
Qed.

Lemma handleChangeTag_active h annotationId newTagId now :
  isEditing h = false → readOnly h = false →
  handleChangeTag h annotationId newTagId now =
  match annotationsColl h !! annotationId with
  | None => inl not_found
  | Some d =>
      inr (closeEditMenu
             (withColl h (<[annotationId := setTag newTagId now d]>
                            (annotationsColl h))))
  end.
Proof.
  intros He Hr. unfold handleChangeTag, updateDoc. rewrite He, Hr. simpl.
  by destruct (annotationsColl h !! annotationId).
Qed.

Lemma handleChangeTag_inactive h annotationId newTagId now :
  isEditing h || readOnly h = true →
  handleChangeTag h annotationId newTagId now = inr h.
Proof. intros Hg. unfold handleChangeTag. by rewrite Hg. Qed.

(** C8 (as the code has it): when no document at all is stored under the
    id, [handleChangeTag] is rejected with [not_found] (outside edit and
    read-only mode, where it does nothing), and in every case it leaves
    the component, hence every span, as it was. *)
Theorem handleChangeTag_unknown_id h annotationId newTagId now :
  annotationsColl h !! annotationId = None →
  (isEditing h = false → readOnly h = false →
   handleChangeTag h annotationId newTagId now = inl not_found)
  ∧ (∀ h', handleChangeTag h annotationId newTagId now = inr h' → h' = h).
Proof.
  intros Hnone. split.
  - intros He Hr. by rewrite handleChangeTag_active, Hnone.
  - intros h' Hres.
    destruct (isEditing h || readOnly h) eqn:Hg.
    + rewrite handleChangeTag_inactive in Hres by done. congruence.
    + apply orb_false_elim in Hg as [He Hr].
      rewrite handleChangeTag_active, Hnone in Hres by done. discriminate.
Qed.

(** C9: a [handleChangeTag] that goes through changes, in the targeted
    document, the tag id and [updated_at] only: its offsets, cached text
    and remaining fields are as before, and every other document is
    untouched. *)
Theorem handleChangeTag_frame h annotationId newTagId now h' :
  handleChangeTag h annotationId newTagId now = inr h' →
  (∀ k, k ≠ annotationId →
        annotationsColl h' !! k = annotationsColl h !! k)
  ∧ ((∃ d d',
        annotationsColl h !! annotationId = Some d
        ∧ annotationsColl h' !! annotationId = Some d'
        ∧ doc_start_index d' = doc_start_index d
        ∧ doc_end_index d' = doc_end_index d
        ∧ doc_text_content d' = doc_text_content d
        ∧ paper_id d' = paper_id d ∧ user_id d' = user_id d
        ∧ created_at d' = created_at d ∧ deleted_at d' = deleted_at d
        ∧ (isEditing h = false → readOnly h = false →
           doc_tag_id d' = newTagId ∧ updated_at d' = Some now))
     ∨ (annotationsColl h !! annotationId = None ∧ h' = h)).
Proof.
  intros Hres.
  destruct (isEditing h || readOnly h) eqn:Hg.
  - rewrite handleChangeTag_inactive in Hres by done.
    injection Hres as <-. split; [done|].
    destruct (annotationsColl h !! annotationId) as [d|] eqn:Hd.
    + left. exists d, d. do 9 (split; [done|]).
      intros He Hr. rewrite He, Hr in Hg. discriminate.
    + by right.
  - apply orb_false_elim in Hg as [He Hr].
    rewrite handleChangeTag_active in Hres by done.
    destruct (annotationsColl h !! annotationId) as [d|] eqn:Hd;
      [|discriminate].
    injection Hres as <-. simpl. split.
    + intros k Hk. by rewrite lookup_insert_ne.
    + left. exists d, (setTag newTagId now d).
      rewrite lookup_insert_eq. by repeat split.
Qed.
End StoreFacts.

(** The range check the handlers do not make: offsets beyond the end of the
    text are accepted and stored. *)
Lemma offsets_beyond_text_are_stored :
  ¬ (∀ (h : Highlighter ascii) (start end_ : Z) selectedText tagId now,
       (end_ ≤ start ∨ start < 0 ∨ Z.of_nat (length (text h)) < start
        ∨ end_ < 0 ∨ Z.of_nat (length (text h)) < end_)%Z →
       annotationsColl
         (handleAddAnnotation (acceptOffsets h start end_ selectedText)
                              tagId now)
       = annotationsColl h).
Proof.
  intros H.
  specialize (H emptyHighlighter 0%Z 11%Z (chars "0123456789") "tagA" "t1").
  simpl in H. unfold addDoc in H.
  assert (E := H ltac:(right; right; right; right; simpl; lia)).
  exact (insert_non_empty _ _ _ E).
Qed.

Lemma acceptOffsets_invalid_range_witness :
  acceptOffsets emptyHighlighter 4 4 (chars "") = emptyHighlighter
  ∧ (selection emptyHighlighter = None →
     ∀ tagId now,
       handleAddAnnotation (acceptOffsets emptyHighlighter 4 4 (chars ""))
                           tagId now
       = emptyHighlighter).
Proof.
  apply (acceptOffsets_invalid_range emptyHighlighter 4 4 (chars "")).
  left. lia.
Defined.

(** Soft-deleting the stored sample document leaves it in the collection,
    marked, and out of the live annotations. *)
Lemma handleDeleteAnnotation_sample :
  handleDeleteAnnotation (highlighterWith sampleDoc) "a1" "t1"
  = inr (highlighterWith (setDeleted "t1" sampleDoc))
  ∧ liveAnnotations (highlighterWith (setDeleted "t1" sampleDoc)) = [].
Proof.
  split.
  - unfold handleDeleteAnnotation, updateDoc. simpl.
    rewrite lookup_singleton_eq. unfold highlighterWith, withColl. simpl.
    by rewrite insert_singleton_eq.
  - unfold liveAnnotations, highlighterWith. simpl.
    by rewrite map_to_list_singleton.
Qed.

(** A soft-deleted document is still found by its id: retagging it goes
    through and rewrites the tombstoned document. *)
Lemma retag_soft_deleted_goes_through :
  ¬ (∀ (h : Highlighter ascii) annotationId newTagId now,
       (∀ d, annotationsColl h !! annotationId = Some d → isLive d = false) →
       handleChangeTag h annotationId newTagId now = inl not_found).
Proof.
  intros H.
  assert (∀ d, annotationsColl (highlighterWith (setDeleted "t1" sampleDoc))
                 !! "a1" = Some d → isLive d = false) as Hdead.
  { intros d. simpl. rewrite lookup_singleton_eq. by intros [= <-]. }
  specialize (H _ "a1" "tagB" "t2" Hdead).
  rewrite handleChangeTag_active in H by done.
  simpl in H. rewrite lookup_singleton_eq in H. discriminate H.
Qed.

Lemma handleChangeTag_unknown_id_witness :
  (isEditing emptyHighlighter = false → readOnly emptyHighlighter = false →
   handleChangeTag emptyHighlighter "a1" "tagB" "t2" = inl not_found)
  ∧ (∀ h', handleChangeTag emptyHighlighter "a1" "tagB" "t2" = inr h' →
           h' = emptyHighlighter).
Proof.
  apply (handleChangeTag_unknown_id emptyHighlighter "a1" "tagB" "t2").
  apply lookup_empty.
Defined.

Lemma handleChangeTag_frame_witness :
  ∃ h', handleChangeTag (highlighterWith sampleDoc) "a1" "tagB" "t2" = inr h'
        ∧ ∀ k, k ≠ "a1" →
            annotationsColl h' !! k
            = annotationsColl (highlighterWith sampleDoc) !! k.
Proof.
  assert (handleChangeTag (highlighterWith sampleDoc) "a1" "tagB" "t2"
          = inr (closeEditMenu
                   (withColl (highlighterWith sampleDoc)
                      (<["a1" := setTag "tagB" "t2" sampleDoc]>
                         (annotationsColl (highlighterWith sampleDoc))))))
    as E.
  { rewrite handleChangeTag_active by reflexivity.
    simpl. by rewrite lookup_singleton_eq. }
  eexists. split; [exact E|].
  exact (proj1 (handleChangeTag_frame _ _ _ _ _ E)).
Defined.

Lemma renderText_concat_valid_witness :
  concat (seg_text <$>
            renderText sampleText
              [mkAnnotation "a" 0 5 "tagA" (chars "01234");
               mkAnnotation "b" 3 8 "tagB" (chars "34567")])
  = sampleText.
Proof.
  apply renderText_concat_valid.
  repeat constructor; simpl; lia.
Defined.

Lemma renderText_no_adjacent_plain_witness :
  ¬ (seg_type (mkSegment (chars "45") text_ "text-4" None) = text_
     ∧ seg_type (mkSegment (chars "67") highlight "b" (Some "tagB")) = text_).
Proof.
  apply (renderText_no_adjacent_plain sampleText
           [mkAnnotation "a" 2 4 "tagA" (chars "23");
            mkAnnotation "b" 6 8 "tagB" (chars "67")]
           ltac:(repeat constructor; simpl; lia) 2%nat);
    reflexivity.
Defined.

Lemma renderText_concat_unbounded_witness :
  ∃ segs,
    renderText sampleText
      [mkAnnotation "a" (-3) 4 "tagA" (chars "0123");
       mkAnnotation "b" 6 25 "tagB" (chars "6789");
       mkAnnotation "c" 30 30 "tagB" (chars "")] = segs
    ∧ concat (seg_text <$> segs) = sampleText.
Proof.
  apply renderText_concat_unbounded.
  repeat constructor; simpl; lia.
Defined.

(** *** Tag grouping *)

(** C5: grouping ["Method"; "Methods"; "Result"] with threshold 3 gives two
    groups, in this order: "Method" with members "Method" and "Methods", then
    "Result" with "Result" alone. *)
Theorem groupTags_method_result :
  groupTags ["Method"; "Methods"; "Result"] 3 =
  [ {| name := "Method"; tags := ["Method"; "Methods"] |};
    {| name := "Result"; tags := ["Result"] |} ]
  ∧ defaultThreshold = 3%Z
  ∧ areTagsSimilar "Method" "Methods" 3 = true
  ∧ areTagsSimilar "Method" "Result" 3 = false.
Proof. repeat split; vm_compute; reflexivity. Qed.

(** *** The Levenshtein recurrence and edit sequences *)

Section RecurrenceFacts.
Context {char : Type} `{EqDecision char}.
Implicit Types (s t u : list char) (x y c d : char).

Lemma lev_nil_l t : lev [] t = length t.
Proof. by destruct t. Qed.

Lemma lev_nil_r s : lev s [] = length s.
Proof. by destruct s. Qed.

Lemma lev_cons x s y t :
  lev (x :: s) (y :: t) =
  if decide (x = y) then lev s t
  else Nat.min (lev s t + 1) (Nat.min (lev (x :: s) t + 1) (lev s (y :: t) + 1)).
Proof. done. Qed.

Lemma lev_sym s : ∀ t, lev s t = lev t s.
Proof.
  induction s as [|x s IHs]; intros t.
  - by rewrite lev_nil_l, lev_nil_r.
  - induction t as [|y t IHt].
    + by rewrite lev_nil_l, lev_nil_r.
    + rewrite !lev_cons, IHt, (IHs t), (IHs (y :: t)).
      destruct (decide (x = y)) as [->|Hne].
      * by rewrite decide_True.
      * rewrite decide_False by congruence. lia.
Qed.

Lemma lev_refl s : lev s s = 0.
Proof.
  induction s as [|x s IH]; [done|].
  by rewrite lev_cons, decide_True.
Qed.

(** Dropping or adding a leading character moves the value by at most one. *)
Lemma lev_head s : ∀ u c,
  lev s u ≤ lev s (c :: u) + 1 ∧ lev (c :: s) u ≤ lev s u + 1.
Proof.
  induction s as [|x s IHs].
  - intros u c. split.
    + rewrite !lev_nil_l. simpl. lia.
    + destruct u as [|y u]; [done|].
      rewrite lev_cons, !lev_nil_l. simpl. case_decide; lia.
  - assert (∀ u c, lev (x :: s) u ≤ lev (x :: s) (c :: u) + 1) as Hdrop.
    { intros u c. rewrite lev_cons.
      pose proof (IHs u x) as [_ H1]. pose proof (IHs u c) as [H2 _].
      case_decide; lia. }
    intros u c. split; [apply Hdrop|].
    destruct u as [|y u].
    + rewrite !lev_nil_r. simpl. lia.
    + rewrite (lev_cons c). pose proof (Hdrop u y). case_decide; lia.
Qed.

Lemma lev_drop_r s u c : lev s u ≤ lev s (c :: u) + 1.
Proof. apply lev_head. Qed.

Lemma lev_add_l s u c : lev (c :: s) u ≤ lev s u + 1.
Proof. apply lev_head. Qed.

Lemma lev_drop_l s u c : lev s u ≤ lev (c :: s) u + 1.
Proof. rewrite (lev_sym s), (lev_sym (c :: s)). apply lev_drop_r. Qed.

Lemma lev_add_r s u c : lev s (c :: u) ≤ lev s u + 1.
Proof. rewrite (lev_sym s (c :: u)), (lev_sym s u). apply lev_add_l. Qed.

Lemma lev_change_l s u c d : lev (c :: s) u ≤ lev (d :: s) u + 1.
Proof.
  destruct u as [|y u]; [rewrite !lev_nil_r; simpl; lia|].
  rewrite !lev_cons.
  pose proof (lev_drop_l s u d). pose proof (lev_drop_r s u y).
  repeat case_decide; lia.
Qed.

(** A step that is sound below a common first character is sound with it. *)
Lemma lev_under_cons s t x :
  (∀ u, lev s u ≤ lev t u + 1) → ∀ u, lev (x :: s) u ≤ lev (x :: t) u + 1.
Proof.
  intros Hst. induction u as [|y u IHu].
  - rewrite !lev_nil_r. specialize (Hst []). rewrite !lev_nil_r in Hst.
    simpl. lia.
  - rewrite !lev_cons.
    pose proof (Hst u). pose proof (Hst (y :: u)).
    case_decide; lia.
Qed.

Lemma lev_edit1 s t : edit1 s t → ∀ u, lev s u ≤ lev t u + 1.
Proof.
  intros [l c r|l c r|l c d r]; induction l as [|x l IH]; simpl;
    try (by apply lev_under_cons); intros u.
  - apply lev_drop_l.
  - apply lev_add_l.
  - apply lev_change_l.
Qed.

(** No edit sequence is shorter than the recurrence's value. *)
Lemma lev_lower_bound n s t : edits n s t → lev s t ≤ n.
Proof.
  induction 1 as [s|n s t u Hst _ IH].
  - by rewrite lev_refl.
  - pose proof (lev_edit1 s t Hst u). lia.
Qed.

Lemma edit1_cons c s t : edit1 s t → edit1 (c :: s) (c :: t).
Proof.
  intros [l c' r|l c' r|l c' d r].
  - apply (edit_insert (c :: l)).
  - apply (edit_delete (c :: l)).
  - apply (edit_substitute (c :: l)).
Qed.

Lemma edits_cons c n s t : edits n s t → edits n (c :: s) (c :: t).
Proof.
  induction 1 as [s|n s t u Hst _ IH]; [constructor|].
  eapply edits_step; [by apply edit1_cons|done].
Qed.

Lemma edits_insert_all t : edits (length t) [] t.
Proof.
  induction t as [|c t IH]; [constructor|]. simpl.
  eapply edits_step; [apply (edit_insert [] c [])|]. by apply edits_cons.
Qed.

Lemma edits_delete_all s : edits (length s) s [].
Proof.
  induction s as [|c s IH]; [constructor|]. simpl.
  eapply edits_step; [apply (edit_delete [] c s)|done].
Qed.

(** The recurrence's value is reached by an edit sequence. *)
Lemma lev_reached s : ∀ t, edits (lev s t) s t.
Proof.
  induction s as [|x s IHs]; intros t.
  - rewrite lev_nil_l. apply edits_insert_all.
  - induction t as [|y t IHt].
    + rewrite lev_nil_r. apply edits_delete_all.
    + rewrite lev_cons. destruct (decide (x = y)) as [->|Hne].
      * apply edits_cons, IHs.
      * assert (edits (lev s t + 1) (x :: s) (y :: t)) as Hsub.
        { rewrite Nat.add_1_r.
          eapply edits_step; [apply (edit_substitute [] x y s)|].
          apply edits_cons, IHs. }
        assert (edits (lev (x :: s) t + 1) (x :: s) (y :: t)) as Hins.
        { rewrite Nat.add_1_r.
          eapply edits_step; [apply (edit_insert [] y (x :: s))|].
          by apply edits_cons. }
        assert (edits (lev s (y :: t) + 1) (x :: s) (y :: t)) as Hdel.
        { rewrite Nat.add_1_r.
          eapply edits_step; [apply (edit_delete [] x s)|]. apply IHs. }
        destruct (Nat.min_spec (lev s t + 1)
                    (Nat.min (lev (x :: s) t + 1) (lev s (y :: t) + 1)))
          as [[_ ->]|[_ ->]]; [done|].
        by destruct (Nat.min_spec (lev (x :: s) t + 1) (lev s (y :: t) + 1))
          as [[_ ->]|[_ ->]].
Qed.

Lemma lev_isEditDistance s t : isEditDistance s t (lev s t).
Proof. split; [apply lev_reached|intros n; apply lev_lower_bound]. Qed.

(** Edit sequences read backwards. *)
Lemma edit1_reverse s t : edit1 s t → edit1 (reverse s) (reverse t).
Proof.
  intros [l c r|l c r|l c d r];
    rewrite ?reverse_app, ?reverse_cons, <- ?(assoc_L (++)); simpl.
  - apply edit_insert.
  - apply edit_delete.
  - apply edit_substitute.
Qed.

Lemma edits_reverse n s t : edits n s t → edits n (reverse s) (reverse t).
Proof.
  induction 1 as [s|n s t u Hst _ IH]; [constructor|].
  eapply edits_step; [by apply edit1_reverse|done].
Qed.

Lemma isEditDistance_reverse s t (k : nat) :
  isEditDistance (reverse s) (reverse t) k → isEditDistance s t k.
Proof.
  intros [Hreach Hmin]. split.
  - apply edits_reverse in Hreach. by rewrite !reverse_involutive in Hreach.
  - intros n Hn. by apply Hmin, edits_reverse.
Qed.
End RecurrenceFacts.

(** *** levenshteinDistance fills the table with the recurrence *)

Lemma arraySet_append {A} (arr : list A) (v : A) :
  arraySet arr (length arr) v = Some (arr ++ [v]).
Proof.
  unfold arraySet. rewrite decide_False by lia. by rewrite decide_True.
Qed.

Lemma arraySet_overwrite {A} (arr : list A) (i : nat) (v : A) :
  i < length arr → arraySet arr i v = Some (<[i:=v]> arr).
Proof. intros Hi. unfold arraySet. by rewrite decide_True. Qed.

(** A counting loop establishes what each of its turns preserves. *)
Lemma forEach_seq {St} (P : nat → St → Prop) (body : nat → St → option St)
    len :
  ∀ lo s,
    P lo s →
    (∀ i s, lo ≤ i < lo + len → P i s → ∃ s', body i s = Some s' ∧ P (S i) s') →
    ∃ s', forEach (seq lo len) body s = Some s' ∧ P (lo + len) s'.
Proof.
  induction len as [|len IH]; intros lo s Hs Hbody; simpl.
  - exists s. by rewrite Nat.add_0_r.
  - destruct (Hbody lo s ltac:(lia) Hs) as (s1 & -> & Hs1). simpl.
    destruct (IH (S lo) s1 Hs1) as (s2 & Hrun & Hs2).
    + intros i s' Hi. apply Hbody. lia.
    + exists s2. split; [done|]. by rewrite Nat.add_succ_r.
Qed.

Section TableFacts.
Context {char : Type} `{EqDecision char} (a b : list char).
Implicit Types matrix : list (list nat).

Lemma cell_0_l j : j ≤ length a → cell a b 0 j = j.
Proof.
  intros Hj. unfold cell. rewrite take_0, reverse_nil, lev_nil_l, length_reverse, length_take.
  lia.
Qed.

Lemma cell_0_r i : i ≤ length b → cell a b i 0 = i.
Proof.
  intros Hi. unfold cell. rewrite take_0, reverse_nil, lev_nil_r, length_reverse, length_take.
  lia.
Qed.

Lemma cell_S i j x y :
  b !! i = Some x → a !! j = Some y →
  cell a b (S i) (S j) =
  if decide (x = y) then cell a b i j
  else Nat.min (cell a b i j + 1)
         (Nat.min (cell a b (S i) j + 1) (cell a b i (S j) + 1)).
Proof.
  intros Hx Hy. unfold cell.
  rewrite (take_S_r b i x Hx), (take_S_r a j y Hy), !reverse_snoc.
  by rewrite lev_cons.
Qed.

Lemma cell_full : cell a b (length b) (length a) = lev (reverse b) (reverse a).
Proof. unfold cell. by rewrite !take_ge. Qed.

Lemma tableRow_lookup i width j :
  j < width → tableRow a b i width !! j = Some (cell a b i j).
Proof.
  intros Hj. unfold tableRow.
  by rewrite list_lookup_fmap, lookup_seq_lt.
Qed.

Lemma tableRow_S i width :
  tableRow a b i (S width) = tableRow a b i width ++ [cell a b i width].
Proof. unfold tableRow. by rewrite seq_S, fmap_app. Qed.

Lemma length_tableRow i width : length (tableRow a b i width) = width.
Proof. unfold tableRow. by rewrite length_fmap, length_seq. Qed.

Lemma tableRow_0 width :
  width ≤ S (length a) → tableRow a b 0 width = seq 0 width.
Proof.
  induction width as [|width IH]; intros Hw; [done|].
  rewrite tableRow_S, seq_S, IH by lia. simpl.
  by rewrite cell_0_l by lia.
Qed.

Lemma matrixGet_at matrix i j row v :
  matrix !! i = Some row → row !! j = Some v → matrixGet matrix i j = Some v.
Proof. intros Hrow Hv. unfold matrixGet, arrayGet. by rewrite Hrow. Qed.

(** One assignment [matrix[i][j] = v] at the end of row [i]. *)
Lemma matrixSet_append matrix i row v :
  matrix !! i = Some row →
  matrixSet matrix i (length row) v = Some (<[i := row ++ [v]]> matrix).
Proof.
  intros Hrow. unfold matrixSet, arrayGet. rewrite Hrow. simpl.
  rewrite arraySet_append. simpl.
  apply arraySet_overwrite. by eapply lookup_lt_Some.
Qed.

(** The first loop: one row [[i]] per index. *)
Lemma initRows_run :
  forEach (seq 0 (S (length b))) (λ i matrix, arraySet matrix i [i]) []
  = Some ((λ r, [r]) <$> seq 0 (S (length b))).
Proof.
  destruct (forEach_seq (λ i matrix, matrix = (λ r, [r]) <$> seq 0 i)
              (λ i matrix, arraySet matrix i [i]) (S (length b)) 0 [])
    as (matrix & -> & ->); [done| |done].
  intros i matrix _ ->. exists (((λ r, [r]) <$> seq 0 i) ++ [[i]]). split.
  - unfold arraySet. rewrite length_fmap, length_seq.
    rewrite decide_False by lia. by rewrite decide_True.
  - by rewrite seq_S, fmap_app.
Qed.

Lemma initRows_state :
  firstRowInProgress b 0 ((λ r, [r]) <$> seq 0 (S (length b))).
Proof.
  split; [by rewrite length_fmap, length_seq|]. split; [done|].
  intros r Hr. by rewrite list_lookup_fmap, lookup_seq_lt by lia.
Qed.

(** The second loop: [matrix[0][j] = j]. *)
Lemma firstRow_step j matrix :
  firstRowInProgress b j matrix →
  ∃ matrix', matrixSet matrix 0 j j = Some matrix'
             ∧ firstRowInProgress b (S j) matrix'.
Proof.
  intros (Hlen & Hrow & Hrest). destruct j as [|j].
  - exists matrix. split; [|done].
    unfold matrixSet, arrayGet. rewrite Hrow. simpl.
    rewrite arraySet_overwrite by lia. f_equal. by apply list_insert_id.
  - replace (Nat.max (S j) 1) with (S j) in Hrow by lia.
    exists (<[0 := seq 0 (S j) ++ [S j]]> matrix). split.
    + rewrite <- (matrixSet_append matrix 0 (seq 0 (S j)) (S j) Hrow).
      by rewrite length_seq.
    + split; [by rewrite length_insert|]. split.
      * rewrite list_lookup_insert_eq by lia.
        replace (Nat.max (S (S j)) 1) with (S (S j)) by lia.
        by rewrite (seq_S (S j)).
      * intros r Hr. rewrite list_lookup_insert_ne by lia. by apply Hrest.
Qed.

Lemma firstRow_done matrix :
  firstRowInProgress b (S (length a)) matrix → rowsDone a b 1 matrix.
Proof.
  intros (Hlen & Hrow & Hrest). split; [done|]. split; [|done].
  intros r Hr. replace r with 0 by lia.
  rewrite Hrow, tableRow_0 by lia. f_equal. f_equal. lia.
Qed.

(** The inner loop's body. *)
Lemma fillCell_step i j matrix :
  1 ≤ i ≤ length b → 1 ≤ j ≤ length a →
  rowInProgress a b i j matrix →
  ∃ matrix', fillCell a b i j matrix = Some matrix'
             ∧ rowInProgress a b i (S j) matrix'.
Proof.
  intros Hi Hj (Hlen & Hdone & Hrow & Hrest).
  destruct i as [|i]; [lia|]. destruct j as [|j]; [lia|].
  destruct (lookup_lt_is_Some_2 b i ltac:(lia)) as [x Hx].
  destruct (lookup_lt_is_Some_2 a j ltac:(lia)) as [y Hy].
  assert (matrixGet matrix i j = Some (cell a b i j)) as Hsub.
  { eapply matrixGet_at; [apply Hdone; lia|apply tableRow_lookup; lia]. }
  assert (matrixGet matrix (S i) j = Some (cell a b (S i) j)) as Hins.
  { eapply matrixGet_at; [apply Hrow|apply tableRow_lookup; lia]. }
  assert (matrixGet matrix i (S j) = Some (cell a b i (S j))) as Hdel.
  { eapply matrixGet_at; [apply Hdone; lia|apply tableRow_lookup; lia]. }
  exists (<[S i := tableRow a b (S i) (S (S j))]> matrix). split.
  - unfold fillCell, charAt. simpl. rewrite !Nat.sub_0_r, Hx, Hy, Hsub.
    rewrite (tableRow_S (S i) (S j)), (cell_S i j x y Hx Hy).
    rewrite <- (matrixSet_append matrix (S i) _ _ Hrow), length_tableRow.
    destruct (decide (x = y)) as [->|Hne].
    + by rewrite decide_True.
    + rewrite decide_False by congruence. simpl. by rewrite Hins, Hdel.
  - split; [by rewrite length_insert|]. split; [|split].
    + intros r Hr. rewrite list_lookup_insert_ne by lia. by apply Hdone.
    + by rewrite list_lookup_insert_eq by lia.
    + intros r Hr. rewrite list_lookup_insert_ne by lia. by apply Hrest.
Qed.

(** The inner loop completes one row. *)
Lemma fillRow_run i matrix :
  1 ≤ i ≤ length b → rowsDone a b i matrix →
  ∃ matrix',
    forEach (seq 1 (length a)) (λ j, fillCell a b i j) matrix = Some matrix'
    ∧ rowsDone a b (S i) matrix'.
Proof.
  intros Hi (Hlen & Hdone & Hrest).
  destruct (forEach_seq (λ j, rowInProgress a b i j)
              (λ j, fillCell a b i j) (length a) 1 matrix)
    as (matrix' & Hrun & Hlen' & Hdone' & Hrow' & Hrest').
  - split; [done|]. split; [done|]. split.
    + rewrite Hrest by lia. unfold tableRow. simpl.
      by rewrite cell_0_r by lia.
    + intros r Hr. apply Hrest. lia.
  - intros j matrix1 Hj. apply fillCell_step; lia.
  - exists matrix'. split; [done|]. split; [done|]. split.
    + intros r Hr. destruct (decide (r = i)) as [->|Hne]; [done|].
      apply Hdone'. lia.
    + intros r Hr. apply Hrest'. lia.
Qed.

(** The function returns the recurrence's value on the reversed strings. *)
Lemma levenshteinDistance_lev :
  levenshteinDistance a b = Some (lev (reverse b) (reverse a)).
Proof.
  unfold levenshteinDistance. rewrite initRows_run. simpl.
  destruct (forEach_seq (firstRowInProgress b)
              (λ j matrix, matrixSet matrix 0 j j) (S (length a)) 0
              ((λ r, [r]) <$> seq 0 (S (length b))) initRows_state)
    as (matrix1 & Hrun1 & Hinv1).
  { intros j matrix _. apply firstRow_step. }
  simpl in Hrun1. rewrite Hrun1. simpl.
  destruct (forEach_seq (rowsDone a b)
              (λ i matrix,
                 forEach (seq 1 (length a)) (λ j, fillCell a b i j) matrix)
              (length b) 1 matrix1 (firstRow_done _ Hinv1))
    as (matrix2 & Hrun2 & Hlen & Hdone & _).
  { intros i matrix Hi. apply fillRow_run. lia. }
  rewrite Hrun2. simpl. rewrite <- cell_full.
  eapply matrixGet_at; [apply Hdone; lia|apply tableRow_lookup; lia].
Qed.
End TableFacts.

(** C7: [levenshteinDistance a b] always returns a number, and that number
    is the Levenshtein distance of [a] and [b]: some sequence of that many
    single-character insertions, deletions and substitutions turns [a] into
    [b], and no shorter sequence does.  In particular the distance between a
    string and the empty string is the string's length, and the distance
    between "kitten" and "sitting" is 3. *)
Theorem levenshteinDistance_edit_distance :
  (∀ (char : Type) (eqdec : EqDecision char) (a b : list char),
     ∃ dist, levenshteinDistance a b = Some dist ∧ isEditDistance a b dist)
  ∧ (∀ (char : Type) (eqdec : EqDecision char) (s : list char),
       levenshteinDistance s [] = Some (length s)
       ∧ levenshteinDistance [] s = Some (length s))
  ∧ levenshteinDistance (chars "kitten") (chars "sitting") = Some 3.
Proof.
  split; [|split].
  - intros char eqdec a b. exists (lev (reverse b) (reverse a)).
    split; [apply levenshteinDistance_lev|].
    rewrite lev_sym. apply isEditDistance_reverse, lev_isEditDistance.
  - intros char eqdec s. rewrite !levenshteinDistance_lev, reverse_nil.
    by rewrite lev_nil_l, lev_nil_r, length_reverse.
  - by vm_compute.
Qed.

(** ** Part III: further properties of the same code *)

(** *** levenshteinDistance is a metric *)

Section MetricFacts.
Context {char : Type} `{EqDecision char}.
Implicit Types (s t u a b c : list char).

Lemma edits_zero s t : edits 0 s t → s = t.
Proof. by inversion 1. Qed.

Lemma edits_trans n m s t u : edits n s t → edits m t u → edits (n + m) s u.
Proof.
  induction 1 as [s|n s t' t Hst _ IH]; intros Htu; [done|].
  simpl. eapply edits_step; [done|]. by apply IH.
Qed.

Lemma edit1_length s t :
  edit1 s t → length s ≤ length t + 1 ∧ length t ≤ length s + 1.
Proof. intros [l c r|l c r|l c d r]; rewrite !length_app; simpl; lia. Qed.

Lemma edits_length n s t :
  edits n s t → length s ≤ length t + n ∧ length t ≤ length s + n.
Proof.
  induction 1 as [s|n s t u Hst _ IH]; [lia|].
  apply edit1_length in Hst. lia.
Qed.

Lemma lev_zero s t : lev s t = 0 → s = t.
Proof.
  intros Hz. apply edits_zero. rewrite <- Hz. apply lev_reached.
Qed.

Lemma lev_triangle s t u : lev s u ≤ lev s t + lev t u.
Proof.
  apply lev_lower_bound, (edits_trans _ _ s t u); apply lev_reached.
Qed.

Lemma lev_upper s : ∀ t, lev s t ≤ Nat.max (length s) (length t).
Proof.
  induction s as [|x s IH]; intros t.
  - rewrite lev_nil_l. lia.
  - destruct t as [|y t]; [rewrite lev_nil_r; lia|].
    rewrite lev_cons. specialize (IH t). simpl. case_decide; lia.
Qed.

Lemma lev_lower s t :
  length s - length t ≤ lev s t ∧ length t - length s ≤ lev s t.
Proof.
  pose proof (edits_length _ _ _ (lev_reached s t)). lia.
Qed.

(** X1: the distance does not depend on the order of its arguments. *)
Theorem levenshteinDistance_sym a b :
  levenshteinDistance a b = levenshteinDistance b a.
Proof. by rewrite !levenshteinDistance_lev, lev_sym. Qed.

(** X2: the distance is 0 exactly when the two strings are equal. *)
Theorem levenshteinDistance_zero_iff a b :
  levenshteinDistance a b = Some 0 ↔ a = b.
Proof.
  rewrite levenshteinDistance_lev. split.
  - intros [= Hz]. apply lev_zero in Hz.
    by rewrite <- (reverse_involutive a), <- (reverse_involutive b), Hz.
  - intros ->. by rewrite lev_refl.
Qed.

(** X3: the triangle inequality. *)
Theorem levenshteinDistance_triangle a b c d1 d2 d3 :
  levenshteinDistance a b = Some d1 →
  levenshteinDistance b c = Some d2 →
  levenshteinDistance a c = Some d3 →
  d3 ≤ d1 + d2.
Proof.
  rewrite !levenshteinDistance_lev. intros [= <-] [= <-] [= <-].
  rewrite (Nat.add_comm (lev _ _)). apply lev_triangle.
Qed.

(** X4: the distance lies between the difference of the two lengths and
    the larger of them. *)
Theorem levenshteinDistance_bounds a b dist :
  levenshteinDistance a b = Some dist →
  length a - length b ≤ dist ∧ length b - length a ≤ dist
  ∧ dist ≤ Nat.max (length a) (length b).
Proof.
  rewrite levenshteinDistance_lev. intros [= <-].
  pose proof (lev_lower (reverse b) (reverse a)) as Hlow.
  pose proof (lev_upper (reverse b) (reverse a)) as Hup.
  rewrite !length_reverse in Hlow, Hup. lia.
Qed.
End MetricFacts.

Lemma levenshteinDistance_triangle_witness :
  3 ≤ 1 + 2.
Proof.
  apply (levenshteinDistance_triangle (chars "cat") (chars "cut")
           (chars "curts") 1 2 3); by vm_compute.
Defined.

Lemma levenshteinDistance_bounds_witness :
  length (chars "kitten") - length (chars "sitting") ≤ 3
  ∧ length (chars "sitting") - length (chars "kitten") ≤ 3
  ∧ 3 ≤ Nat.max (length (chars "kitten")) (length (chars "sitting")).
Proof.
  apply (levenshteinDistance_bounds (chars "kitten") (chars "sitting") 3).
  by vm_compute.
Defined.

(** *** areTagsSimilar *)



Lemma prefix_empty s : String.prefix "" s = true.
Proof. by destruct s. Qed.

Lemma prefix_refl s : String.prefix s s = true.
Proof.
  induction s as [|c s IH]; [done|]. simpl.
  by destruct (ascii_dec c c).
Qed.

Lemma includes_empty s : includes s "" = true.
Proof. destruct s; simpl; by rewrite ?prefix_empty. Qed.

Lemma includes_refl s : includes s s = true.
Proof. destruct s; [done|]. cbn [includes]. by rewrite prefix_refl. Qed.

Lemma areTagsSimilar_empty_l s threshold : areTagsSimilar "" s threshold = true.
Proof.
  unfold areTagsSimilar. cbn [toLowerCase].
  rewrite includes_empty, orb_true_r. by case_match.
Qed.

(** X5: similarity is reflexive and symmetric, for every threshold. *)
Theorem areTagsSimilar_refl_sym s1 s2 threshold :
  areTagsSimilar s1 s1 threshold = true
  ∧ areTagsSimilar s1 s2 threshold = areTagsSimilar s2 s1 threshold.
Proof.
  split.
  - unfold areTagsSimilar. by rewrite String.eqb_refl.
  - unfold areTagsSimilar.
    rewrite (String.eqb_sym (toLowerCase s2)).
    rewrite (orb_comm (includes (toLowerCase s2) _)).
    by rewrite !levenshteinDistance_lev,
         (lev_sym (reverse (list_ascii_of_string (toLowerCase s2)))).
Qed.



(** *** The order used by sortTags *)

Lemma string_compare_trans s1 : ∀ s2 s3,
  String.compare s1 s2 ≠ Gt → String.compare s2 s3 ≠ Gt →
  String.compare s1 s3 ≠ Gt.
Proof.
  induction s1 as [|c1 s1 IH]; intros [|c2 s2] [|c3 s3]; simpl; try done.
  unfold Ascii.compare.
  destruct (N.compare_spec (N_of_ascii c1) (N_of_ascii c2)) as [E12|L12|G12];
    destruct (N.compare_spec (N_of_ascii c2) (N_of_ascii c3)) as [E23|L23|G23];
    destruct (N.compare_spec (N_of_ascii c1) (N_of_ascii c3)) as [E13|L13|G13];
    try done; try lia.
  apply IH.
Qed.

Lemma tagLe_compare s t : tagLe s t ↔ String.compare s t ≠ Gt.
Proof. unfold tagLe, String.leb. by destruct (String.compare s t). Qed.

#[local] Instance tagLe_trans : Transitive tagLe.
Proof.
  intros s1 s2 s3. rewrite !tagLe_compare. apply string_compare_trans.
Qed.

#[local] Instance tagLe_antisymm : AntiSymm (=) tagLe.
Proof. intros s t. apply String.leb_antisym. Qed.

Lemma tagLe_total s t : tagLe s t ∨ tagLe t s.
Proof. apply String.leb_total. Qed.

Lemma tagLe_empty s : tagLe "" s.
Proof. by destruct s. Qed.

Lemma insertTag_perm t l : insertTag t l ≡ₚ t :: l.
Proof.
  induction l as [|u l IH]; simpl; [done|].
  case_match; [done|]. rewrite IH. apply Permutation_swap.
Qed.

Lemma sortTags_perm l : sortTags l ≡ₚ l.
Proof.
  induction l as [|t l IH]; simpl; [done|].
  rewrite insertTag_perm. by f_equiv.
Qed.

Lemma insertTag_sorted t l : Sorted tagLe l → Sorted tagLe (insertTag t l).
Proof.
  induction 1 as [|u l Hl IH Hhd]; simpl; [by repeat constructor|].
  destruct (String.leb t u) eqn:Htu.
  - by repeat constructor.
  - constructor; [done|].
    assert (tagLe u t) as Hut.
    { destruct (tagLe_total t u) as [H|H]; [|done].
      unfold tagLe in H. congruence. }
    destruct l as [|v l]; simpl; [by constructor|].
    inversion_clear Hhd. by case_match; constructor.
Qed.

Lemma sortTags_sorted l : Sorted tagLe (sortTags l).
Proof.
  induction l as [|t l IH]; simpl; [constructor|]. by apply insertTag_sorted.
Qed.

Lemma sortTags_strongly_sorted l : StronglySorted tagLe (sortTags l).
Proof. apply Sorted_StronglySorted; [apply _|apply sortTags_sorted]. Qed.

Lemma sortTags_permutation_eq l1 l2 : l1 ≡ₚ l2 → sortTags l1 = sortTags l2.
Proof.
  intros Hp. apply (Sorted_unique tagLe); try apply sortTags_sorted.
  by rewrite !sortTags_perm.
Qed.

Lemma elem_of_sortTags x l : x ∈ sortTags l ↔ x ∈ l.
Proof. by rewrite sortTags_perm. Qed.

(** *** groupTags: what the two loops compute *)

Lemma groupedLabels_snoc groups g :
  groupedLabels (groups ++ [g]) = groupedLabels groups ++ tags g.
Proof.
  unfold groupedLabels. rewrite fmap_app, concat_app. simpl.
  by rewrite app_nil_r.
Qed.

(** The inner loop appends to the group exactly the labels of the list that
    are not yet visited and similar to [tag], each once, and marks them. *)
Lemma collectSimilar_spec tag threshold l : ∀ members (visited : gset string),
  ∃ added,
    foldl (collectSimilar tag threshold) (members, visited) l
    = (members ++ added, list_to_set added ∪ visited)
    ∧ NoDup added
    ∧ ∀ x, x ∈ added ↔
           (x ∈ l ∧ (x ∉ visited) ∧ areTagsSimilar tag x threshold = true).
Proof.
  induction l as [|y l IH]; intros members visited.
  - exists []. simpl. split; [|split].
    + f_equal; [by rewrite app_nil_r|set_solver].
    + constructor.
    + set_solver.
  - cbn [foldl]. unfold collectSimilar at 2.
    case_bool_decide as Hy.
    { destruct (IH members visited) as (added & -> & Hnd & Hin).
      exists added. split; [done|]. split; [done|].
      intros x. rewrite Hin. set_solver. }
    destruct (areTagsSimilar tag y threshold) eqn:Hsim.
    + destruct (IH (members ++ [y]) ({[y]} ∪ visited))
        as (added & -> & Hnd & Hin).
      exists (y :: added). split; [|split].
      * f_equal; [by rewrite <- app_assoc|set_solver].
      * constructor; [|done]. rewrite Hin. set_solver.
      * intros x. rewrite elem_of_cons, Hin, elem_of_cons.
        split.
        -- intros [->|(? & ? & ?)].
           ++ split; [by left|]. by split.
           ++ split; [by right|]. split; [set_solver|done].
        -- intros ([->|?] & ? & ?); [by left|].
           destruct (decide (x = y)) as [->|]; [by left|]. right. set_solver.
    + destruct (IH members visited) as (added & -> & Hnd & Hin).
      exists added. split; [done|]. split; [done|].
      intros x. rewrite Hin, elem_of_cons. split; [naive_solver|].
      intros ([->|?] & ? & ?); [congruence|done].
Qed.

(** Once every remaining label is visited the outer loop changes nothing. *)
Lemma groupStep_all_visited sortedTags threshold todo :
  ∀ groups (visited : gset string),
    (∀ x, x ∈ todo → x ∈ visited) →
    foldl (groupStep sortedTags threshold) (groups, visited) todo
    = (groups, visited).
Proof.
  induction todo as [|t todo IH]; intros groups visited Hall; [done|].
  cbn [foldl]. unfold groupStep at 2.
  rewrite bool_decide_true by (apply Hall; left).
  apply IH. intros x Hx. apply Hall. by right.
Qed.

Lemma groupingInv_init sortedTags threshold :
  groupingInv sortedTags threshold [] [] ∅.
Proof.
  repeat split; try constructor; try set_solver.
Qed.

(** One turn of the outer loop. *)
Lemma groupStep_inv sortedTags threshold done tag todo groups visited :
  StronglySorted tagLe sortedTags → sortedTags = done ++ tag :: todo →
  groupingInv sortedTags threshold done groups visited →
  ∃ groups' visited',
    groupStep sortedTags threshold (groups, visited) tag = (groups', visited')
    ∧ groupingInv sortedTags threshold (done ++ [tag]) groups' visited'.
Proof.
  intros Hsorted HL (Hnd & Hvis & HinL & Hdone & Hshape & Hfit & Hord).
  unfold groupStep. case_bool_decide as Htag.
  - exists groups, visited. split; [done|].
    split; [done|]. split; [done|]. split; [done|]. split; [set_solver|].
    split; [|done].
    eapply Forall_impl; [exact Hshape|]. intros g [? ?]. set_solver.
  - destruct (collectSimilar_spec tag threshold sortedTags [tag]
                ({[tag]} ∪ visited)) as (added & Hrun & Hnda & Hadd).
    rewrite Hrun.
    eexists _, _. split; [done|].
    assert (tag ∈ sortedTags) as HtagL by (rewrite HL; set_solver).
    assert (∀ m, m ∈ added → tagLe tag m) as Hle.
    { intros m Hm. apply Hadd in Hm as (HmL & Hmv & _).
      rewrite HL in HmL. rewrite HL in Hsorted.
      apply StronglySorted_app_1_r, StronglySorted_cons in Hsorted
        as [Hall _].
      rewrite Forall_forall in Hall. apply Hall.
      apply elem_of_app in HmL as [HmL|HmL]; [set_solver|].
      set_solver. }
    assert (∀ g, g ∈ groups → tagLe (name g) tag ∧ name g ≠ tag) as Hprev.
    { intros g Hg. rewrite Forall_forall in Hshape.
      destruct (Hshape g Hg) as [Hgd _]. split.
      - rewrite HL in Hsorted.
        eapply (StronglySorted_app_1_elem_of tagLe); [exact Hsorted|done|].
        by left.
      - intros Heq. apply Htag, Hdone. by rewrite <- Heq. }
    split; [|split; [|split; [|split; [|split; [|split]]]]].
    + rewrite groupedLabels_snoc. simpl. apply NoDup_app. split; [done|].
      split.
      * intros x Hx. apply Hvis in Hx. rewrite elem_of_cons, Hadd. set_solver.
      * constructor; [|done]. rewrite Hadd. set_solver.
    + intros x. rewrite groupedLabels_snoc. simpl.
      rewrite elem_of_app, elem_of_cons, <- Hvis. set_solver.
    + intros x. rewrite groupedLabels_snoc. simpl.
      rewrite elem_of_app, elem_of_cons, Hadd.
      intros [?|[->|(? & _)]]; [by apply HinL|done|done].
    + intros x. rewrite elem_of_app. set_solver.
    + apply Forall_app. split.
      * eapply Forall_impl; [exact Hshape|]. intros g [? ?]. set_solver.
      * constructor; [|constructor]. simpl. split; [set_solver|].
        exists added. split; [done|]. intros m Hm. split; [|by apply Hle].
        by apply Hadd in Hm as (_ & _ & ?).
    + intros g x Hg HxL Hxv. apply elem_of_app in Hg as [Hg|Hg].
      * apply (Hfit g x Hg HxL). set_solver.
      * apply list_elem_of_singleton in Hg as ->. simpl.
        destruct (areTagsSimilar tag x threshold) eqn:Hsim; [|done].
        exfalso. apply Hxv. rewrite !elem_of_union, elem_of_list_to_set.
        left. apply Hadd. set_solver.
    + apply StronglySorted_app_2; [|done|repeat constructor].
      intros g1 g2 Hg1 Hg2. apply list_elem_of_singleton in Hg2 as ->.
      destruct (Hprev g1 Hg1) as [? ?].
      split; [done|]. split; [done|]. simpl. intros m Hm.
      apply (Hfit g1 m Hg1).
      * apply elem_of_cons in Hm as [->|Hm]; [done|].
        by apply Hadd in Hm as (? & _).
      * apply elem_of_cons in Hm as [->|Hm]; [done|].
        apply Hadd in Hm. set_solver.
Qed.

(** The outer loop, from any point of the sorted list to its end. *)
Lemma groupLoop_inv sortedTags threshold :
  StronglySorted tagLe sortedTags →
  ∀ todo done groups visited,
    sortedTags = done ++ todo →
    groupingInv sortedTags threshold done groups visited →
    ∃ groups' visited',
      foldl (groupStep sortedTags threshold) (groups, visited) todo
      = (groups', visited')
      ∧ groupingInv sortedTags threshold sortedTags groups' visited'.
Proof.
  intros Hsorted. induction todo as [|tag todo IH];
    intros done groups visited HL Hinv.
  - rewrite app_nil_r in HL. subst done. by exists groups, visited.
  - destruct (groupStep_inv _ _ _ _ _ _ _ Hsorted HL Hinv)
      as (groups1 & visited1 & Hstep & Hinv1).
    cbn [foldl]. rewrite Hstep. apply (IH (done ++ [tag])); [|done].
    by rewrite <- app_assoc.
Qed.

Lemma groupTags_inv l threshold :
  ∃ visited,
    groupingInv (sortTags l) threshold (sortTags l) (groupTags l threshold)
                visited.
Proof.
  destruct (groupLoop_inv (sortTags l) threshold
              (sortTags_strongly_sorted l) (sortTags l) [] [] ∅ eq_refl
              (groupingInv_init _ _)) as (groups & visited & Hrun & Hinv).
  exists visited. unfold groupTags. by rewrite Hrun.
Qed.

Lemma elem_of_concat {A} (x : A) (ls : list (list A)) :
  x ∈ concat ls ↔ ∃ l, x ∈ l ∧ l ∈ ls.
Proof.
  induction ls as [|l0 ls IH]; simpl.
  - split; [by intros ?%elem_of_nil|]. by intros (l & _ & ?%elem_of_nil).
  - rewrite elem_of_app, IH. split.
    + intros [?|(l & ? & ?)]; [exists l0|exists l]; split; try done;
        [by left|by right].
    + intros (l & Hx & [->|?]%elem_of_cons); [by left|]. right. by exists l.
Qed.

Lemma groupedLabels_groupTags (l : list string) (threshold : Z) :
  NoDup (groupedLabels (groupTags l threshold))
  ∧ ∀ x, x ∈ groupedLabels (groupTags l threshold) ↔ x ∈ l.
Proof.
  destruct (groupTags_inv l threshold)
    as (visited & Hnd & Hvis & HinL & Hdone & _).
  split; [done|]. intros x. split.
  - intros Hx. by apply elem_of_sortTags, HinL.
  - intros Hx. by apply Hvis, Hdone, elem_of_sortTags.
Qed.

(** X7: the groups partition the distinct labels of the input: every input
    label is a member of a group, every member is an input label, and no
    label occurs twice in the output, even if the input repeats it. *)
Theorem groupTags_partition (l : list string) (threshold : Z) :
  NoDup (groupedLabels (groupTags l threshold))
  ∧ ∀ x, x ∈ groupedLabels (groupTags l threshold) ↔ x ∈ l.
Proof.
  destruct (groupTags_inv l threshold)
    as (visited & Hnd & Hvis & HinL & Hdone & _).
  split; [done|]. intros x. split.
  - intros Hx. by apply elem_of_sortTags, HinL.
  - intros Hx. by apply Hvis, Hdone, elem_of_sortTags.
Qed.

(** X8: every group is named after one of the input labels, lists that
    label first, and all its other members are similar to the name and do
    not come before it in the sort order. *)
Theorem groupTags_group_shape (l : list string) (threshold : Z) :
  Forall (λ g, name g ∈ l ∧ groupShape threshold g) (groupTags l threshold).
Proof.
  destruct (groupTags_inv l threshold) as (visited & _ & _ & _ & _ & Hshape & _).
  eapply Forall_impl; [exact Hshape|]. intros g [Hn Hg].
  split; [by apply elem_of_sortTags|done].
Qed.

(** X9: the groups come out in strictly increasing order of their names,
    and no member of a group is similar to the name of an earlier group:
    a label joins the first group whose name it resembles. *)
Theorem groupTags_first_fit (l : list string) (threshold : Z) :
  StronglySorted (groupBefore threshold) (groupTags l threshold).
Proof.
  by destruct (groupTags_inv l threshold) as (visited & _ & _ & _ & _ & _ & _ & ?).
Qed.

(** X10: the result does not depend on the order in which the labels are
    given. *)
Theorem groupTags_permutation (l1 l2 : list string) (threshold : Z) :
  l1 ≡ₚ l2 → groupTags l1 threshold = groupTags l2 threshold.
Proof.
  intros Hp. unfold groupTags. by rewrite (sortTags_permutation_eq l1 l2 Hp).
Qed.

Lemma groupTags_permutation_witness :
  groupTags ["Result"; "Method"; "Methods"] 3
  = groupTags ["Method"; "Methods"; "Result"] 3.
Proof.
  apply groupTags_permutation.
  change ["Result"; "Method"; "Methods"] with (["Result"] ++ ["Method"; "Methods"]).
  change ["Method"; "Methods"; "Result"] with (["Method"; "Methods"] ++ ["Result"]).
  apply Permutation_app_comm.
Defined.

(** X11: an empty label absorbs everything: when the input contains the
    empty string, the output is a single group named by it that holds every
    distinct label, because every string includes the empty one. *)
Theorem groupTags_empty_label (l : list string) (threshold : Z) :
  "" ∈ l →
  ∃ members,
    groupTags l threshold = [ {| name := ""; tags := "" :: members |} ]
    ∧ NoDup members
    ∧ ∀ x, x ∈ members ↔ (x ∈ l ∧ x ≠ "").
Proof.
  intros Hin.
  destruct (groupedLabels_groupTags l threshold) as [Hnd Hmem].
  destruct (groupTags_inv l threshold)
    as (visited & _ & _ & _ & _ & Hshape & _ & Hord).
  apply Hmem in Hin.
  destruct (groupTags l threshold) as [|g0 rest]; [by inversion Hin|].
  apply StronglySorted_cons in Hord as [Hg0 _].
  rewrite Forall_forall in Hg0.
  apply Forall_cons in Hshape as [[_ (members & Htags & Hmembers)] Hrest].
  assert (name g0 = "") as Hname.
  { unfold groupedLabels in Hin. simpl in Hin.
    apply elem_of_app in Hin as [Hin|Hin].
    - rewrite Htags in Hin. apply elem_of_cons in Hin as [Heq|Hin]; [done|].
      apply Hmembers in Hin as [_ Hle].
      apply (anti_symm tagLe); [done|apply tagLe_empty].
    - apply elem_of_concat in Hin as (ms & Hin & Hms).
      apply list_elem_of_fmap in Hms as (g & -> & Hg).
      destruct (Hg0 g Hg) as (Hle & Hne & _).
      rewrite Forall_forall in Hrest. destruct (Hrest g Hg) as [_ (r & Hr & Hsim)].
      assert (name g = "") as Hgname.
      { rewrite Hr in Hin. apply elem_of_cons in Hin as [Heq|Hin]; [done|].
        apply Hsim in Hin as [_ Hle'].
        apply (anti_symm tagLe); [done|apply tagLe_empty]. }
      rewrite Hgname in Hle, Hne.
      apply (anti_symm tagLe); [done|apply tagLe_empty]. }
  destruct rest as [|g1 rest].
  - exists members. destruct g0 as [n0 t0]. simpl in *. subst n0 t0.
    split; [done|]. unfold groupedLabels in Hnd, Hmem. simpl in Hnd, Hmem.
    rewrite app_nil_r in Hnd, Hmem. apply NoDup_cons in Hnd as [Hni Hnd].
    split; [done|]. intros x. rewrite <- Hmem, elem_of_cons.
    split; [|naive_solver]. intros Hx. split; [by right|]. by intros ->.
  - exfalso. destruct (Hg0 g1 ltac:(left)) as (_ & _ & Hno).
    apply Forall_cons in Hrest as [[_ (r & Hr & _)] _].
    specialize (Hno (name g1)). rewrite Hr, Hname in Hno.
    rewrite areTagsSimilar_empty_l in Hno. discriminate Hno. by left.
Qed.

Lemma groupTags_empty_label_witness :
  ∃ members,
    groupTags ["Result"; ""; "Method"] 3
    = [ {| name := ""; tags := "" :: members |} ]
    ∧ NoDup members
    ∧ ∀ x, x ∈ members ↔ (x ∈ ["Result"; ""; "Method"] ∧ x ≠ "").
Proof. apply groupTags_empty_label. set_solver. Defined.

(** *** AdminAnalytics: the local group counts *)

Lemma arrayFromSet_loop (xs : list string) : ∀ acc,
  NoDup acc →
  let res := foldl (λ acc x, if bool_decide (x ∈ acc) then acc else acc ++ [x])
                   acc xs in
  NoDup res ∧ ∀ x, x ∈ res ↔ (x ∈ acc ∨ x ∈ xs).
Proof.
  induction xs as [|y xs IH]; intros acc Hacc; simpl.
  - split; [done|]. set_solver.
  - case_bool_decide as Hy.
    + destruct (IH acc Hacc) as [Hnd Hin]. split; [done|].
      intros x. rewrite Hin. set_solver.
    + destruct (IH (acc ++ [y])) as [Hnd Hin].
      { apply NoDup_app. split; [done|]. split; [set_solver|].
        apply NoDup_singleton. }
      split; [done|]. intros x. rewrite Hin. set_solver.
Qed.

Lemma arrayFromSet_spec (xs : list string) :
  NoDup (arrayFromSet xs) ∧ ∀ x, x ∈ arrayFromSet xs ↔ x ∈ xs.
Proof.
  destruct (arrayFromSet_loop xs [] (NoDup_nil_2)) as [Hnd Hin].
  split; [done|]. intros x. unfold arrayFromSet. rewrite Hin. set_solver.
Qed.

Lemma insertCount_perm a l : insertCount a l ≡ₚ a :: l.
Proof.
  induction l as [|b l IH]; simpl; [done|].
  case_match; [done|]. rewrite IH. apply Permutation_swap.
Qed.

Lemma sortCounts_perm l : sortCounts l ≡ₚ l.
Proof.
  induction l as [|a l IH]; simpl; [done|].
  rewrite insertCount_perm. by f_equiv.
Qed.

Lemma insertCount_sorted a l :
  Sorted (λ x y, gc_value y ≤ gc_value x) l →
  Sorted (λ x y, gc_value y ≤ gc_value x) (insertCount a l).
Proof.
  induction 1 as [|b l Hl IH Hhd]; simpl; [by repeat constructor|].
  destruct (Nat.leb_spec (gc_value b) (gc_value a)) as [Hle|Hlt].
  - by repeat constructor.
  - constructor; [done|].
    destruct l as [|c l]; simpl; [constructor; lia|].
    inversion_clear Hhd. case_match; constructor; lia.
Qed.

Lemma sortCounts_sorted l :
  Sorted (λ x y, gc_value y ≤ gc_value x) (sortCounts l).
Proof.
  induction l as [|a l IH]; simpl; [constructor|]. by apply insertCount_sorted.
Qed.

Lemma foldl_add_sum {A} (f : A → nat) (l : list A) : ∀ n,
  foldl (λ count x, count + f x) n l = n + sum_list_with f l.
Proof.
  induction l as [|x l IH]; intros n; simpl; [lia|]. rewrite IH. lia.
Qed.

Lemma sum_list_with_concat {A} (f : A → nat) (ls : list (list A)) :
  sum_list_with f (concat ls) = sum_list_with (sum_list_with f) ls.
Proof.
  induction ls as [|l ls IH]; simpl; [done|].
  by rewrite sum_list_with_app, IH.
Qed.

Lemma sum_list_with_zero {A} (g : A → nat) (l : list A) :
  (∀ x, x ∈ l → g x = 0) → sum_list_with g l = 0.
Proof.
  induction l as [|x l IH]; intros Hz; simpl; [done|].
  rewrite (Hz x) by (by left). rewrite IH; [done|].
  intros y Hy. apply Hz. by right.
Qed.

Lemma sum_list_with_single {A} (g : A → nat) (l : list A) (x0 : A) :
  NoDup l → x0 ∈ l → g x0 = 1 → (∀ x, x ∈ l → x ≠ x0 → g x = 0) →
  sum_list_with g l = 1.
Proof.
  induction 1 as [|x l Hx Hnd IH]; intros Hin H1 H0.
  - by apply elem_of_nil in Hin.
  - simpl. apply elem_of_cons in Hin as [->|Hin].
    + rewrite H1, sum_list_with_zero; [done|].
      intros y Hy. apply H0; [by right|]. by intros ->.
    + rewrite (H0 x); [|by left|by intros ->].
      rewrite IH; [done|done|done|]. intros y Hy. apply H0. by right.
Qed.

Lemma NoDup_fmap_inj {A B} (f : A → B) (l : list A) x y :
  NoDup (f <$> l) → x ∈ l → y ∈ l → f x = f y → x = y.
Proof.
  induction l as [|z l IH]; simpl; intros Hnd Hx Hy Hf.
  - by apply elem_of_nil in Hx.
  - apply NoDup_cons in Hnd as [Hz Hnd].
    apply elem_of_cons in Hx as [->|Hx]; apply elem_of_cons in Hy as [->|Hy].
    + done.
    + exfalso. apply Hz. rewrite Hf. by apply list_elem_of_fmap_2.
    + exfalso. apply Hz. rewrite <- Hf. by apply list_elem_of_fmap_2.
    + by apply IH.
Qed.

Section GroupCountFacts.
Context {char : Type}.
Implicit Types (tagValues : list Tag) (annotations : list (AnnotationDoc char)).

Lemma groupCount_value tagValues annotations g :
  gc_value (groupCount tagValues annotations g)
  = sum_list_with (countForLabel tagValues annotations) (tags g).
Proof. unfold groupCount. simpl. by rewrite foldl_add_sum. Qed.

Lemma countForLabel_cons tagValues a annotations tagName :
  countForLabel tagValues (a :: annotations) tagName
  = countsFor tagValues a tagName + countForLabel tagValues annotations tagName.
Proof.
  unfold countForLabel, countsFor. rewrite filter_cons.
  by case_decide.
Qed.

Lemma countsFor_sum tagValues (a : AnnotationDoc char) labels :
  NoDup (tagKey <$> tagValues) → NoDup labels →
  (∀ x, x ∈ labels ↔ x ∈ label <$> tagValues) →
  sum_list_with (countsFor tagValues a) labels
  = if decide (doc_tag_id a ∈ tagKey <$> tagValues) then 1 else 0.
Proof.
  intros Hkeys Hnd Hlabels. case_decide as Hin.
  - apply list_elem_of_fmap in Hin as (t & Hkey & Ht).
    apply (sum_list_with_single _ _ (label t)); [done| | |].
    + apply Hlabels. by apply list_elem_of_fmap_2.
    + unfold countsFor. rewrite decide_True; [done|].
      rewrite Hkey. apply list_elem_of_fmap_2.
      by apply list_elem_of_filter.
    + intros x _ Hne. unfold countsFor. rewrite decide_False; [done|].
      intros Hx. apply list_elem_of_fmap in Hx as (t' & Hkey' & Ht').
      apply list_elem_of_filter in Ht' as [Hlab Ht'].
      apply Hne. rewrite <- Hlab. f_equal.
      apply (NoDup_fmap_inj tagKey tagValues); [done|done|done|congruence].
  - apply sum_list_with_zero. intros x _. unfold countsFor.
    rewrite decide_False; [done|]. intros Hx. apply Hin.
    apply list_elem_of_fmap in Hx as (t' & -> & Ht').
    apply list_elem_of_filter in Ht' as [_ Ht']. by apply list_elem_of_fmap_2.
Qed.

Lemma countForLabel_sum tagValues annotations labels :
  NoDup (tagKey <$> tagValues) → NoDup labels →
  (∀ x, x ∈ labels ↔ x ∈ label <$> tagValues) →
  sum_list_with (countForLabel tagValues annotations) labels
  = length (filter (λ a, doc_tag_id a ∈ tagKey <$> tagValues) annotations).
Proof.
  intros Hkeys Hnd Hlabels.
  induction annotations as [|a annotations IH].
  - by apply sum_list_with_zero.
  - rewrite filter_cons.
    pose proof (countsFor_sum tagValues a labels Hkeys Hnd Hlabels) as Ha.
    assert (sum_list_with (countForLabel tagValues (a :: annotations)) labels
            = sum_list_with (countsFor tagValues a) labels
              + sum_list_with (countForLabel tagValues annotations) labels)
      as ->.
    { clear. induction labels as [|x labels IH]; simpl; [done|].
      rewrite IH, countForLabel_cons. lia. }
    rewrite Ha, IH. by case_decide.
Qed.

(** X12: the local group counts neither drop nor double count: when the
    tag ids are distinct, the values of all groups add up to the number of
    annotations whose [tag_id] is the id of one of the tags. *)
Theorem localGroupCounts_total tagValues annotations :
  NoDup (tagKey <$> tagValues) →
  sum_list_with gc_value (localGroupCounts tagValues annotations)
  = length (filter (λ a, doc_tag_id a ∈ tagKey <$> tagValues) annotations).
Proof.
  intros Hkeys. unfold localGroupCounts.
  rewrite sortCounts_perm.
  destruct (groupedLabels_groupTags (uniqueLabels tagValues) defaultThreshold)
    as [Hnd Hmem].
  destruct (arrayFromSet_spec (label <$> tagValues)) as [_ Huniq].
  rewrite <- (countForLabel_sum tagValues annotations
                (groupedLabels (groupTags (uniqueLabels tagValues)
                                          defaultThreshold)) Hkeys Hnd).
  - unfold groupedLabels. rewrite sum_list_with_concat.
    generalize (groupTags (uniqueLabels tagValues) defaultThreshold).
    intros groups. induction groups as [|g groups IH]; [done|].
    rewrite !fmap_cons. cbn [sum_list_with].
    by rewrite IH, groupCount_value.
  - intros x. rewrite Hmem. apply Huniq.
Qed.

(** The entries come out by decreasing value, one per group of the local
    grouping. *)
Lemma localGroupCounts_sorted tagValues annotations :
  Sorted (λ x y, gc_value y ≤ gc_value x)
         (localGroupCounts tagValues annotations)
  ∧ localGroupCounts tagValues annotations
    ≡ₚ groupCount tagValues annotations
         <$> groupTags (uniqueLabels tagValues) defaultThreshold.
Proof.
  split; [apply sortCounts_sorted|apply sortCounts_perm].
Qed.
End GroupCountFacts.

(** *** renderText: what is shown, and where *)

Section RenderMore.
Context {char : Type}.
Implicit Types (text : list char) (ann : Annotation char).
Implicit Types (anns : list (Annotation char)) (segs : list (Segment char)).
Local Open Scope Z_scope.

Lemma length_slice text a b :
  0 ≤ a → a ≤ b → b ≤ Z.of_nat (length text) →
  length (slice text a b) = Z.to_nat (b - a).
Proof.
  intros Ha Hab Hb. rewrite slice_nonneg by lia.
  rewrite length_drop, length_take. lia.
Qed.

Lemma renderStep_lastIndex text lastIndex segs ann :
  0 ≤ lastIndex ≤ Z.of_nat (length text) → validSpan text ann →
  0 ≤ (renderStep text (lastIndex, segs) ann).1 ≤ Z.of_nat (length text).
Proof.
  intros Hl (Hs & Hse & He). unfold renderStep.
  repeat case_match; simpl; lia.
Qed.

Lemma renderStep_nonempty text lastIndex segs ann :
  0 ≤ lastIndex ≤ Z.of_nat (length text) → validSpan text ann →
  Forall (λ g, seg_text g ≠ []) segs →
  Forall (λ g, seg_text g ≠ []) (renderStep text (lastIndex, segs) ann).2.
Proof.
  intros Hl (Hs & Hse & He) Hsegs. unfold renderStep.
  assert (∀ a b, 0 ≤ a → a < b → b ≤ Z.of_nat (length text) →
                 slice text a b ≠ []) as Hne.
  { intros a b ? ? ? Hnil. apply (f_equal length) in Hnil.
    rewrite length_slice in Hnil by lia. simpl in Hnil. lia. }
  destruct (Z.ltb_spec lastIndex (start_index ann));
    destruct (Z.ltb_spec lastIndex (end_index ann)); simpl;
    rewrite ?Forall_app, ?Forall_singleton; simpl;
    repeat split; try done; apply Hne; lia.
Qed.

(** X13: with spans inside the text, no segment is empty. *)
Theorem renderText_segments_nonempty text anns :
  Forall (validSpan text) anns →
  Forall (λ g, seg_text g ≠ []) (renderText text anns).
Proof.
  intros Hall. apply sortAnns_Forall in Hall. unfold renderText.
  assert (∀ l lastIndex segs,
            Forall (validSpan text) l →
            0 ≤ lastIndex ≤ Z.of_nat (length text) →
            Forall (λ g, seg_text g ≠ []) segs →
            let st := foldl (renderStep text) (lastIndex, segs) l in
            0 ≤ st.1 ≤ Z.of_nat (length text)
            ∧ Forall (λ g, seg_text g ≠ []) st.2) as Hloop.
  { induction l as [|a l IH]; intros lastIndex segs Hl Hli Hsegs;
      cbn [foldl]; [done|].
    inversion_clear Hl as [|? ? Ha Hrest].
    pose proof (renderStep_lastIndex text lastIndex segs a Hli Ha).
    pose proof (renderStep_nonempty text lastIndex segs a Hli Ha Hsegs).
    destruct (renderStep text (lastIndex, segs) a) as [l1 segs1].
    by apply IH. }
  specialize (Hloop (sortAnns anns) 0 [] Hall ltac:(lia) (Forall_nil_2 _)).
  destruct (foldl _ _ _) as [lastIndex segs]. simpl in Hloop.
  destruct Hloop as [Hli Hsegs].
  destruct (Z.ltb_spec lastIndex (Z.of_nat (length text))); [|done].
  apply Forall_app. split; [done|]. apply Forall_singleton. simpl.
  intros Hnil. apply (f_equal length) in Hnil. unfold sliceFrom in Hnil.
  rewrite length_slice in Hnil by lia. simpl in Hnil. lia.
Qed.

Lemma highlightKeys_snoc segs (g : Segment char) :
  highlightKeys (segs ++ [g])
  = highlightKeys segs
    ++ (if decide (seg_type g = highlight)
        then [(seg_id g, seg_tagId g)] else []).
Proof.
  unfold highlightKeys. rewrite filter_app, fmap_app. f_equal.
  rewrite filter_cons. by case_decide.
Qed.

Lemma renderLoop_highlightKeys text anns : ∀ lastIndex segs,
  ∃ keys,
    highlightKeys (foldl (renderStep text) (lastIndex, segs) anns).2
    = highlightKeys segs ++ keys
    ∧ sublist keys ((λ ann, (id ann, Some (tag_id ann))) <$> anns).
Proof.
  induction anns as [|a anns IH]; intros lastIndex segs; cbn [foldl].
  - exists []. by rewrite app_nil_r.
  - unfold renderStep at 2.
    destruct (lastIndex <? start_index a); destruct (lastIndex <? end_index a).
    + edestruct IH as (keys & -> & Hsub).
      exists ((id a, Some (tag_id a)) :: keys).
      rewrite !highlightKeys_snoc. simpl. rewrite app_nil_r, <- app_assoc.
      split; [done|]. by apply sublist_skip.
    + edestruct IH as (keys & -> & Hsub). exists keys.
      rewrite highlightKeys_snoc. simpl. rewrite app_nil_r.
      split; [done|]. by apply sublist_cons.
    + edestruct IH as (keys & -> & Hsub).
      exists ((id a, Some (tag_id a)) :: keys).
      rewrite highlightKeys_snoc. simpl. rewrite <- app_assoc.
      split; [done|]. by apply sublist_skip.
    + edestruct IH as (keys & -> & Hsub). exists keys.
      split; [done|]. by apply sublist_cons.
Qed.

(** X14: every highlighted segment carries the id and tag of an
    annotation; the highlights follow the start order of the annotations,
    and an annotation gives at most one of them. *)
Theorem renderText_highlights_from_annotations text anns :
  sublist (highlightKeys (renderText text anns))
          ((λ ann, (id ann, Some (tag_id ann))) <$> sortAnns anns).
Proof.
  unfold renderText.
  destruct (renderLoop_highlightKeys text (sortAnns anns) 0 [])
    as (keys & Hkeys & Hsub).
  destruct (foldl _ _ _) as [lastIndex segs]. simpl in Hkeys.
  case_match.
  - rewrite highlightKeys_snoc. simpl. by rewrite app_nil_r, Hkeys.
  - by rewrite Hkeys.
Qed.
End RenderMore.

Section RenderDisjoint.
Context {char : Type}.
Implicit Types (text : list char) (ann : Annotation char).
Implicit Types (anns : list (Annotation char)) (segs : list (Segment char)).
Local Open Scope Z_scope.

Lemma sortAnns_disjoint anns : ∀ from,
  disjointFrom from anns → sortAnns anns = anns.
Proof.
  induction anns as [|a anns IH]; intros from Hd; [done|].
  destruct Hd as (_ & Hse & Hrest). simpl. rewrite (IH _ Hrest).
  destruct anns as [|b anns]; [done|]. simpl.
  destruct Hrest as (Hab & _ & _).
  by rewrite (proj2 (Z.leb_le _ _)) by lia.
Qed.

Lemma renderLoop_disjoint text anns : ∀ lastIndex segs,
  disjointFrom lastIndex anns →
  filter (λ g, seg_type g = highlight)
         (foldl (renderStep text) (lastIndex, segs) anns).2
  = filter (λ g, seg_type g = highlight) segs
    ++ ((λ ann, highlightSegment text (start_index ann) (end_index ann) ann)
          <$> anns).
Proof.
  induction anns as [|a anns IH]; intros lastIndex segs Hd; cbn [foldl].
  - simpl. by rewrite app_nil_r.
  - destruct Hd as (Hfrom & Hse & Hrest). unfold renderStep at 2.
    rewrite (proj2 (Z.ltb_lt lastIndex (end_index a))) by lia.
    rewrite Z.max_l by lia.
    destruct (Z.ltb_spec lastIndex (start_index a)).
    + rewrite (IH _ _ Hrest), !filter_app, !filter_cons. simpl.
      rewrite !filter_nil, app_nil_r. by rewrite <- app_assoc.
    + rewrite (IH _ _ Hrest), !filter_app, !filter_cons. simpl.
      rewrite !filter_nil. by rewrite <- app_assoc.
Qed.

(** X15: annotations that do not overlap are all shown, each as one
    highlight over exactly its own range, in start order. *)
Theorem renderText_disjoint_exact text anns :
  disjointFrom 0 anns →
  filter (λ g, seg_type g = highlight) (renderText text anns)
  = (λ ann, highlightSegment text (start_index ann) (end_index ann) ann)
      <$> anns.
Proof.
  intros Hd. unfold renderText. rewrite (sortAnns_disjoint anns 0 Hd).
  pose proof (renderLoop_disjoint text anns 0 [] Hd) as Hloop.
  destruct (foldl _ _ _) as [lastIndex segs]. simpl in Hloop.
  case_match; [|done].
  rewrite filter_app, filter_cons. simpl.
  by rewrite filter_nil, app_nil_r.
Qed.

Lemma textId_inj n m : textId n = textId m → n = m.
Proof.
  unfold textId. simpl. intros H. simplify_eq.
  by apply (inj pretty).
Qed.

Lemma keysInv_step text done lastIndex segs ann :
  start_index ann ≤ end_index ann →
  id ann ∉ id <$> done →
  (∀ n, id ann ≠ textId n) →
  (∀ b n, b ∈ done → id b ≠ textId n) →
  keysInv done (lastIndex, segs) →
  keysInv (done ++ [ann]) (renderStep text (lastIndex, segs) ann).
Proof.
  intros Hse Hfresh Hann Hdone [Hnd Hall]. simpl in Hnd, Hall.
  rewrite Forall_forall in Hall.
  assert (textId lastIndex ∉ seg_id <$> segs) as Hplain.
  { intros Hin. apply list_elem_of_fmap in Hin as (g & Hg & Hin).
    destruct (Hall g Hin) as [(n & Hn & Hid)|Hid].
    - rewrite Hid in Hg. apply textId_inj in Hg. lia.
    - apply list_elem_of_fmap in Hid as (b & Hb & Hbin).
      apply (Hdone b lastIndex Hbin). congruence. }
  assert (id ann ∉ seg_id <$> segs) as Hhl.
  { intros Hin. apply list_elem_of_fmap in Hin as (g & Hg & Hin).
    destruct (Hall g Hin) as [(n & Hn & Hid)|Hid].
    - apply (Hann n). congruence.
    - apply Hfresh. congruence. }
  assert (∀ l', lastIndex ≤ l' →
            Forall (λ g, (∃ n, n < l' ∧ seg_id g = textId n)
                         ∨ seg_id g ∈ id <$> (done ++ [ann])) segs) as Hold.
  { intros l' Hl'. apply Forall_forall. intros g Hg.
    destruct (Hall g Hg) as [(n & Hn & Hid)|Hid].
    - left. exists n. split; [lia|done].
    - right. rewrite fmap_app. set_solver. }
  unfold renderStep.
  destruct (Z.ltb_spec lastIndex (start_index ann));
    destruct (Z.ltb_spec lastIndex (end_index ann)); try (exfalso; lia).
  - split; simpl.
    + rewrite !fmap_app. simpl. rewrite <- app_assoc. simpl.
      apply NoDup_app. split; [done|]. split.
      * intros x Hx [->|[->|?%elem_of_nil]%elem_of_cons]%elem_of_cons; done.
      * apply NoDup_cons. split; [|apply NoDup_singleton].
        intros Heq%list_elem_of_singleton. by apply (Hann lastIndex).
    + rewrite !Forall_app, !Forall_singleton. split; [split|].
      * apply Hold. lia.
      * left. exists lastIndex. split; [lia|done].
      * right. simpl. rewrite fmap_app. set_solver.
  - split; simpl.
    + rewrite fmap_app. simpl. apply NoDup_app. split; [done|]. split.
      * intros x Hx ->%list_elem_of_singleton. done.
      * apply NoDup_singleton.
    + rewrite Forall_app, Forall_singleton. split.
      * apply Hold. lia.
      * right. simpl. rewrite fmap_app. set_solver.
  - split; simpl; [done|]. apply Hold. lia.
Qed.

Lemma keysInv_loop text todo : ∀ done st,
  Forall (λ ann, start_index ann ≤ end_index ann) todo →
  NoDup (id <$> (done ++ todo)) →
  (∀ b n, b ∈ done ++ todo → id b ≠ textId n) →
  keysInv done st →
  keysInv (done ++ todo) (foldl (renderStep text) st todo).
Proof.
  induction todo as [|a todo IH]; intros done [lastIndex segs] Hall Hnd Hids Hinv.
  - by rewrite app_nil_r.
  - cbn [foldl]. inversion_clear Hall as [|? ? Ha Hrest].
    replace (done ++ a :: todo) with ((done ++ [a]) ++ todo) in *
      by (by rewrite <- app_assoc).
    apply IH; [done|done|done|].
    apply keysInv_step; [done| | | |done].
    + rewrite !fmap_app in Hnd. simpl in Hnd.
      apply NoDup_app in Hnd as [Hnd _].
      apply NoDup_app in Hnd as (_ & Hdis & _).
      intros Hin. apply (Hdis _ Hin). by left.
    + intros n. apply Hids. set_solver.
    + intros b n Hb. apply Hids. set_solver.
Qed.

(** X16: the keys that the JSX gives to the segments are pairwise distinct,
    provided the annotations have distinct ids that do not look like the
    [text-n] keys of plain segments, and none of them ends before it
    starts. *)
Theorem renderText_keys_distinct text anns :
  Forall (λ ann, start_index ann ≤ end_index ann) anns →
  NoDup (id <$> anns) →
  (∀ b n, b ∈ anns → id b ≠ textId n) →
  NoDup (seg_id <$> renderText text anns).
Proof.
  intros Hall Hnd Hids. unfold renderText.
  pose proof (keysInv_loop text (sortAnns anns) [] (0, [])) as Hloop.
  simpl in Hloop. destruct Hloop as [Hnd' Hkeys].
  - by apply sortAnns_Forall.
  - by rewrite sortAnns_perm.
  - intros b n Hb. apply Hids. by rewrite <- (sortAnns_perm anns).
  - split; simpl; constructor.
  - destruct (foldl _ _ _) as [lastIndex segs]. simpl in Hnd', Hkeys.
    case_match; [|done].
    rewrite fmap_app. simpl. apply NoDup_app. split; [done|]. split.
    + intros x Hx ->%list_elem_of_singleton.
      apply list_elem_of_fmap in Hx as (g & Hg & Hin).
      rewrite Forall_forall in Hkeys.
      destruct (Hkeys g Hin) as [(n & Hn & Hid)|Hid].
      * rewrite Hid in Hg. apply textId_inj in Hg. lia.
      * apply list_elem_of_fmap in Hid as (b & Hb & Hbin).
        apply (Hids b lastIndex).
        -- by rewrite <- (sortAnns_perm anns).
        -- congruence.
    + apply NoDup_singleton.
Qed.
End RenderDisjoint.

Section RenderCoverage.
Context {char : Type}.
Implicit Types (text : list char) (ann : Annotation char).
Implicit Types (anns done : list (Annotation char)) (segs : list (Segment char)).
Local Open Scope Z_scope.

Lemma highlightMask_snoc segs (g : Segment char) :
  highlightMask (segs ++ [g])
  = highlightMask segs
    ++ replicate (length (seg_text g)) (bool_decide (seg_type g = highlight)).
Proof.
  unfold highlightMask. rewrite fmap_app, concat_app. simpl.
  by rewrite app_nil_r.
Qed.

Lemma fmap_seq_const {B} (f : nat → B) (b : B) (k : nat) : ∀ n : nat,
  (∀ p : nat, (n ≤ p < n + k)%nat → f p = b) →
  f <$> seq n k = replicate k b.
Proof.
  induction k as [|k IH]; intros n Hf; simpl; [done|].
  rewrite (Hf n) by lia. f_equal. apply IH. intros p Hp. apply Hf. lia.
Qed.

Lemma fmap_seq_ext {B} (f g : nat → B) (k : nat) : ∀ n : nat,
  (∀ p : nat, (n ≤ p < n + k)%nat → f p = g p) →
  f <$> seq n k = g <$> seq n k.
Proof.
  induction k as [|k IH]; intros n Hf; simpl; [done|].
  rewrite (Hf n) by lia. f_equal. apply IH. intros p Hp. apply Hf. lia.
Qed.

Lemma existsb_perm {A} (f : A → bool) (l1 l2 : list A) :
  l1 ≡ₚ l2 → existsb f l1 = existsb f l2.
Proof.
  induction 1 as [|x l1 l2 _ IH|x y l|l1 l2 l3 _ IH1 _ IH2]; simpl.
  - done.
  - by rewrite IH.
  - destruct (f x), (f y); done.
  - congruence.
Qed.

Lemma covered_snoc done ann p :
  existsb (λ a, covers a p) (done ++ [ann])
  = existsb (λ a, covers a p) done || covers ann p.
Proof. rewrite existsb_app. simpl. by rewrite orb_false_r. Qed.

Lemma covered_beyond done p :
  (∀ a, a ∈ done → end_index a ≤ p) →
  existsb (λ a, covers a p) done = false.
Proof.
  induction done as [|a done IH]; intros Hend; simpl; [done|].
  rewrite IH by (intros b Hb; apply Hend; by right).
  specialize (Hend a ltac:(left)). unfold covers.
  rewrite (proj2 (Z.ltb_ge p (end_index a))) by lia.
  by rewrite andb_false_r.
Qed.

(** Extending a covered mask by [k] positions that all have the value [b]. *)
Lemma coveredMask_extend anns anns' (n k : nat) (b : bool) :
  (∀ p : nat, (p < n)%nat →
     existsb (λ a, covers a (Z.of_nat p)) anns'
     = existsb (λ a, covers a (Z.of_nat p)) anns) →
  (∀ p : nat, (n ≤ p < n + k)%nat →
     existsb (λ a, covers a (Z.of_nat p)) anns' = b) →
  coveredMask anns' (n + k) = coveredMask anns n ++ replicate k b.
Proof.
  intros Hold Hnew. unfold coveredMask. rewrite seq_app, fmap_app. f_equal.
  - apply fmap_seq_ext. intros p Hp. apply Hold. lia.
  - apply fmap_seq_const. intros p Hp. apply Hnew. lia.
Qed.

Lemma coverageInv_step text done from lastIndex segs ann :
  validSpan text ann → from ≤ start_index ann →
  coverageInv text done from (lastIndex, segs) →
  coverageInv text (done ++ [ann]) (start_index ann)
              (renderStep text (lastIndex, segs) ann).
Proof.
  intros (Hs & Hse & He) Hfrom ([Hl0 Hl1] & Hmask & Hends & Hcov).
  simpl in Hl0, Hl1, Hmask, Hends, Hcov.
  assert (∀ p, start_index ann ≤ p → p < end_index ann → covers ann p = true)
    as Hin.
  { intros p ? ?. unfold covers.
    rewrite (proj2 (Z.leb_le _ _)), (proj2 (Z.ltb_lt _ _)) by lia. done. }
  assert (∀ p, p < start_index ann → covers ann p = false) as Hout.
  { intros p ?. unfold covers. by rewrite (proj2 (Z.leb_gt _ _)) by lia. }
  assert (∀ p : nat, (p < Z.to_nat lastIndex)%nat →
            existsb (λ a, covers a (Z.of_nat p)) (done ++ [ann])
            = existsb (λ a, covers a (Z.of_nat p)) done) as Hkeep.
  { intros p Hp. rewrite covered_snoc.
    destruct (Z.lt_ge_cases (Z.of_nat p) (start_index ann)).
    - by rewrite Hout, orb_false_r by lia.
    - rewrite (Hcov (Z.of_nat p)) by lia. done. }
  unfold renderStep.
  destruct (Z.ltb_spec lastIndex (start_index ann));
    destruct (Z.ltb_spec lastIndex (end_index ann)); try (exfalso; lia).
  - split; [simpl; lia|]. split; [|split]; simpl.
    + rewrite !highlightMask_snoc, Hmask. simpl.
      rewrite Z.max_l by lia. rewrite !length_slice by lia.
      replace (Z.to_nat (end_index ann))
        with ((Z.to_nat lastIndex + Z.to_nat (start_index ann - lastIndex))
              + Z.to_nat (end_index ann - start_index ann))%nat by lia.
      rewrite (coveredMask_extend (done ++ [ann]) (done ++ [ann]) _ _ true);
        [|done|].
      * f_equal.
        rewrite (coveredMask_extend done (done ++ [ann]) _ _ false);
          [done|done|].
        intros p Hp. rewrite covered_snoc, Hout by lia.
        rewrite covered_beyond; [done|]. intros a Ha.
        specialize (Hends a Ha). lia.
      * intros p Hp. rewrite covered_snoc, Hin by lia. apply orb_true_r.
    + intros a [Ha| ->%list_elem_of_singleton]%elem_of_app; [|lia].
      specialize (Hends a Ha). lia.
    + intros p Hp1 Hp2. rewrite covered_snoc, Hin by lia. apply orb_true_r.
  - split; [simpl; lia|]. split; [|split]; simpl.
    + rewrite highlightMask_snoc, Hmask. simpl.
      rewrite Z.max_r by lia. rewrite length_slice by lia.
      replace (Z.to_nat (end_index ann))
        with (Z.to_nat lastIndex + Z.to_nat (end_index ann - lastIndex))%nat
        by lia.
      rewrite (coveredMask_extend done (done ++ [ann]) _ _ true);
        [done|done|].
      intros p Hp. rewrite covered_snoc, Hin by lia. apply orb_true_r.
    + intros a [Ha| ->%list_elem_of_singleton]%elem_of_app; [|lia].
      specialize (Hends a Ha). lia.
    + intros p Hp1 Hp2. rewrite covered_snoc.
      destruct (Z.lt_ge_cases p lastIndex).
      * rewrite Hcov by lia. done.
      * rewrite Hin by lia. apply orb_true_r.
  - split; [simpl; lia|]. split; [|split]; simpl.
    + rewrite Hmask. unfold coveredMask.
      apply fmap_seq_ext. intros p Hp. symmetry. apply Hkeep. lia.
    + intros a [Ha| ->%list_elem_of_singleton]%elem_of_app; [|lia].
      by apply Hends.
    + intros p Hp1 Hp2. rewrite covered_snoc, Hcov by lia. done.
Qed.

Lemma coverageInv_loop text todo : ∀ done from st,
  Forall (validSpan text) todo →
  StronglySorted (λ a b, start_index a ≤ start_index b) todo →
  Forall (λ a, from ≤ start_index a) todo →
  coverageInv text done from st →
  ∃ from', coverageInv text (done ++ todo) from'
                       (foldl (renderStep text) st todo).
Proof.
  induction todo as [|a todo IH];
    intros done from [lastIndex segs] Hvalid Hsorted Hfrom Hinv.
  - exists from. by rewrite app_nil_r.
  - cbn [foldl].
    inversion_clear Hvalid as [|? ? Ha Hrest].
    apply StronglySorted_cons in Hsorted as [Hle Hsorted].
    apply Forall_cons in Hfrom as [Hfa _].
    replace (done ++ a :: todo) with ((done ++ [a]) ++ todo)
      by (by rewrite <- app_assoc).
    apply (IH _ (start_index a)); [done|done|done|].
    by apply (coverageInv_step text done from).
Qed.

Lemma insertAnn_sorted ann anns :
  Sorted (λ a b, start_index a ≤ start_index b) anns →
  Sorted (λ a b, start_index a ≤ start_index b) (insertAnn ann anns).
Proof.
  induction 1 as [|b l Hl IH Hhd]; simpl; [by repeat constructor|].
  destruct (Z.leb_spec (start_index ann) (start_index b)).
  - by repeat constructor.
  - constructor; [done|].
    destruct l as [|c l]; simpl; [constructor; lia|].
    inversion_clear Hhd. case_match; constructor; lia.
Qed.

Lemma sortAnns_sorted anns :
  StronglySorted (λ a b, start_index a ≤ start_index b) (sortAnns anns).
Proof.
  apply Sorted_StronglySorted.
  - intros a b c. lia.
  - induction anns as [|a anns IH]; simpl; [constructor|].
    by apply insertAnn_sorted.
Qed.

(** X17: with spans inside the text, a character is shown highlighted
    exactly when some annotation covers its position. *)
Theorem renderText_highlights_covered text anns :
  Forall (validSpan text) anns →
  highlightMask (renderText text anns) = coveredMask anns (length text).
Proof.
  intros Hvalid.
  transitivity (coveredMask (sortAnns anns) (length text)).
  2:{ unfold coveredMask. apply fmap_seq_ext. intros p _.
      apply existsb_perm, sortAnns_perm. }
  unfold renderText.
  destruct (coverageInv_loop text (sortAnns anns) [] 0 (0, []))
    as (from & [Hl0 Hl1] & Hmask & Hends & _).
  - by apply sortAnns_Forall.
  - apply sortAnns_sorted.
  - apply sortAnns_Forall. eapply Forall_impl; [exact Hvalid|].
    by intros a (? & _).
  - split; [simpl; lia|]. split; [done|]. split.
    + by intros a ?%elem_of_nil.
    + simpl. intros p ? ?. lia.
  - simpl in Hl0, Hl1, Hmask, Hends.
    destruct (foldl _ _ _) as [lastIndex segs]. simpl in *.
    destruct (Z.ltb_spec lastIndex (Z.of_nat (length text))).
    + rewrite highlightMask_snoc, Hmask. simpl. unfold sliceFrom.
      rewrite length_slice by lia.
      pose proof (coveredMask_extend (sortAnns anns) (sortAnns anns)
                    (Z.to_nat lastIndex)
                    (Z.to_nat (Z.of_nat (length text) - lastIndex)) false)
        as Hext.
      replace (Z.to_nat lastIndex
               + Z.to_nat (Z.of_nat (length text) - lastIndex))%nat
        with (length text) in Hext by lia.
      rewrite Hext; [done|done|].
      intros p Hp. apply covered_beyond. intros a Ha.
      specialize (Hends a Ha). lia.
    + rewrite Hmask. f_equal. lia.
Qed.
End RenderCoverage.

(** *** More on the handlers *)

Section HandlerFacts.
Context {char : Type}.
Implicit Types (h : Highlighter char) (d : AnnotationDoc char).
Local Open Scope Z_scope.

(** X18: a read-only highlighter is inert: none of the four handlers
    changes the collection or any state of the component. *)
Theorem readOnly_inert h :
  readOnly h = true →
  (∀ selectionObj container, handleMouseUp h selectionObj container = h)
  ∧ (∀ tagId now, handleAddAnnotation h tagId now = h)
  ∧ (∀ annotationId now, handleDeleteAnnotation h annotationId now = inr h)
  ∧ (∀ annotationId newTagId now,
       handleChangeTag h annotationId newTagId now = inr h).
Proof.
  intros Hro. repeat split; intros.
  - unfold handleMouseUp. by rewrite Hro, orb_true_r.
  - unfold handleAddAnnotation. rewrite Hro. by repeat case_match.
  - unfold handleDeleteAnnotation. by rewrite Hro, orb_true_r.
  - unfold handleChangeTag. by rewrite Hro, orb_true_r.
Qed.

(** X19: choosing a tag for a pending selection stores exactly one new
    document, under an id that was free, holding the selection's offsets
    and text, the chosen tag and no deletion mark; every document stored
    before is kept as it was; and the selection is cleared, so that
    choosing a tag again stores nothing more. *)
Theorem handleAddAnnotation_stores_once h sel uid tagId now :
  selection h = Some sel → effectiveUserId h = Some uid →
  readOnly h = false →
  let h' := handleAddAnnotation h tagId now in
  ∃ newId d,
    annotationsColl h !! newId = None
    ∧ annotationsColl h' = <[newId := d]> (annotationsColl h)
    ∧ doc_start_index d = sel_start sel ∧ doc_end_index d = sel_end sel
    ∧ doc_text_content d = sel_text sel ∧ doc_tag_id d = tagId
    ∧ paper_id d = paperId h ∧ user_id d = uid ∧ deleted_at d = None
    ∧ (∀ k d0, annotationsColl h !! k = Some d0 →
               annotationsColl h' !! k = Some d0)
    ∧ selection h' = None
    ∧ ∀ tagId' now', handleAddAnnotation h' tagId' now' = h'.
Proof.
  intros Hsel Huid Hro h'. subst h'. unfold handleAddAnnotation at 1 2 3.
  rewrite Hsel, Huid, Hro. simpl. unfold addDoc.
  assert (annotationsColl h !! fresh (dom (annotationsColl h)) = None) as Hfresh.
  { apply not_elem_of_dom. apply is_fresh. }
  eexists _, _. split; [exact Hfresh|]. split; [done|].
  do 7 (split; [done|]). split; [|split; [done|]].
  - intros k d0 Hk. rewrite lookup_insert_ne; [done|]. intros <-. congruence.
  - intros tagId' now'. unfold handleAddAnnotation. by rewrite Hsel, Huid, Hro.
Qed.

Lemma elem_of_liveAnnotations h (a : Annotation char) :
  a ∈ liveAnnotations h ↔
  ∃ k d, annotationsColl h !! k = Some d ∧ isLive d = true
         ∧ paper_id d = paperId h ∧ Some (user_id d) = effectiveUserId h
         ∧ a = toAnnotation (k, d).
Proof.
  unfold liveAnnotations. rewrite list_elem_of_fmap. split.
  - intros ([k d] & -> & Hin). apply list_elem_of_filter in Hin as [(? & ? & ?) Hin].
    apply elem_of_map_to_list in Hin. by exists k, d.
  - intros (k & d & Hk & ? & ? & ? & ->). exists (k, d). split; [done|].
    apply list_elem_of_filter. split; [done|]. by apply elem_of_map_to_list.
Qed.

(** X20: deleting an annotation is soft: the document stays in the
    collection with [deleted_at] set and everything else as before, the
    other documents are untouched, and the live annotations afterwards are
    the former ones without the deleted id.  An id under which nothing is
    stored is rejected and changes nothing. *)
Theorem handleDeleteAnnotation_soft h annotationId now :
  isEditing h = false → readOnly h = false →
  match annotationsColl h !! annotationId with
  | None => handleDeleteAnnotation h annotationId now = inl not_found
  | Some d =>
      ∃ h', handleDeleteAnnotation h annotationId now = inr h'
        ∧ annotationsColl h' !! annotationId = Some (setDeleted now d)
        ∧ (∀ k, k ≠ annotationId →
                annotationsColl h' !! k = annotationsColl h !! k)
        ∧ (∀ a, a ∈ liveAnnotations h' ↔
                (a ∈ liveAnnotations h ∧ id a ≠ annotationId))
  end.
Proof.
  intros He Hr. unfold handleDeleteAnnotation, updateDoc. rewrite He, Hr. simpl.
  destruct (annotationsColl h !! annotationId) as [d|] eqn:Hd; [|done].
  eexists. split; [done|]. simpl.
  split; [by rewrite lookup_insert_eq|].
  split; [by intros k Hk; rewrite lookup_insert_ne|].
  intros a. rewrite !elem_of_liveAnnotations. simpl. split.
  - intros (k & d' & Hk & Hlive & Hp & Hu & ->).
    destruct (decide (k = annotationId)) as [->|Hne].
    + rewrite lookup_insert_eq in Hk. injection Hk as <-. done.
    + rewrite lookup_insert_ne in Hk by done. split; [|done].
      by exists k, d'.
  - intros [(k & d' & Hk & Hlive & Hp & Hu & ->) Hne]. simpl in Hne.
    exists k, d'. by rewrite lookup_insert_ne.
Qed.
End HandlerFacts.

(** *** The rendered DOM and the selection offsets *)

Section DomFacts.
Context {char : Type}.
Implicit Types (segs : list (Segment char)) (h : Highlighter char).
Implicit Types walker : list (nat * list char).
Local Open Scope Z_scope.

(** Text nodes below the spans of the segments from index [i] on. *)
Lemma segmentNodes_walker segs : ∀ i,
  concat (map textNodes (segmentNodes i segs))
  = match segs with
    | [] => []
    | g :: rest =>
        match seg_text g with
        | [] => []
        | _ => [((2 * i + 2)%nat, seg_text g)]
        end ++ concat (map textNodes (segmentNodes (S i) rest))
    end.
Proof.
  destruct segs as [|g rest]; intros i; [done|].
  cbn [segmentNodes map concat textNodes].
  destruct (seg_text g); simpl; by rewrite ?app_nil_r.
Qed.

Lemma renderedText_cons (g : Segment char) segs :
  renderedText (g :: segs) = seg_text g ++ renderedText segs.
Proof. done. Qed.

Lemma renderDom_total segs : ∀ i,
  sum_list_with (λ n : nat * list char, length n.2)
                (concat (map textNodes (segmentNodes i segs)))
  = length (renderedText segs).
Proof.
  induction segs as [|g rest IH]; intros i; [done|].
  rewrite segmentNodes_walker, sum_list_with_app, IH.
  rewrite renderedText_cons, length_app.
  destruct (seg_text g); simpl; lia.
Qed.

(** The loop returns [-1] or an offset between [currentOffset] and
    [currentOffset] plus all the text it walks over, when the local offset
    is within the node it names. *)
Lemma walkOffset_range walker node offset : ∀ currentOffset,
  (∀ k n, walker !! k = Some n → n.1 = node →
          0 ≤ offset ∧ offset ≤ Z.of_nat (length n.2)) →
  walkOffset walker node offset currentOffset = -1
  ∨ (currentOffset ≤ walkOffset walker node offset currentOffset
     ∧ walkOffset walker node offset currentOffset
       ≤ currentOffset
         + Z.of_nat (sum_list_with (λ n : nat * list char, length n.2) walker)).
Proof.
  induction walker as [|c walker IH]; intros cur Hin; simpl; [by left|].
  case_decide as Hc.
  - right. specialize (Hin 0%nat c eq_refl Hc). lia.
  - destruct (IH (cur + Z.of_nat (length c.2))) as [->|Hr]; [|by left|].
    + intros k n Hk. apply (Hin (S k) n Hk).
    + right. lia.
Qed.

Lemma getAbsoluteOffset_displayed segs node offset :
  boundaryInNode (renderDom segs) node offset →
  getAbsoluteOffset (renderDom segs) node offset = -1
  ∨ (0 ≤ getAbsoluteOffset (renderDom segs) node offset
     ∧ getAbsoluteOffset (renderDom segs) node offset
       ≤ Z.of_nat (length (renderedText segs))).
Proof.
  intros Hin. unfold getAbsoluteOffset.
  destruct (walkOffset_range (treeWalker (renderDom segs)) node offset 0 Hin)
    as [?|Hr]; [by left|right].
  change (treeWalker (renderDom segs))
    with (concat (map textNodes (segmentNodes 0 segs))) in Hr |- *.
  rewrite renderDom_total in Hr. lia.
Qed.

(** Resolving a boundary in the text node of segment [k]. *)
Lemma walkOffset_segment segs : ∀ i k g offset currentOffset,
  segs !! k = Some g → seg_text g ≠ [] →
  walkOffset (concat (map textNodes (segmentNodes i segs)))
             (2 * (i + k) + 2) offset currentOffset
  = currentOffset + Z.of_nat (length (renderedText (take k segs))) + offset.
Proof.
  induction segs as [|g0 rest IH]; intros i k g offset cur Hk Hne.
  - by rewrite lookup_nil in Hk.
  - rewrite segmentNodes_walker. destruct k as [|k].
    + injection Hk as ->.
      destruct (seg_text g) eqn:Hg; [done|].
      cbn [app walkOffset fst snd take].
      rewrite decide_True by lia.
      change (renderedText []) with (@nil char). simpl length. lia.
    + assert (rest !! k = Some g) as Hk' by done.
      assert (walkOffset (concat (map textNodes (segmentNodes (S i) rest)))
                (2 * (i + S k) + 2) offset
                (cur + Z.of_nat (length (seg_text g0)))
              = cur + Z.of_nat (length (seg_text g0))
                + Z.of_nat (length (renderedText (take k rest))) + offset)
        as Hrest.
      { replace (2 * (i + S k) + 2)%nat with (2 * (S i + k) + 2)%nat by lia.
        by apply (IH (S i) k g). }
      assert (Z.of_nat (length (renderedText (take (S k) (g0 :: rest))))
              = Z.of_nat (length (seg_text g0))
                + Z.of_nat (length (renderedText (take k rest)))) as Hlen.
      { rewrite firstn_cons, renderedText_cons, length_app. lia. }
      rewrite Hlen.
      destruct (seg_text g0) eqn:Hg0; cbn [app walkOffset fst snd].
      * simpl length in Hrest. rewrite Z.add_0_r in Hrest. rewrite Hrest.
        simpl length. lia.
      * rewrite decide_False by lia. rewrite Hrest. lia.
Qed.

(** X21: in the DOM rendered from a text and annotations with
    [start_index ≤ end_index], a boundary at local offset [offset] in the
    text node of the [k]-th segment resolves to the absolute offset at which
    the text read so far, up to the boundary, ends: the part of the text
    before the resolved offset is what is displayed before the boundary. *)
Theorem getAbsoluteOffset_points_into_text
    (text : list char) (anns : list (Annotation char)) k g (offset : nat) :
  Forall (λ ann, start_index ann ≤ end_index ann) anns →
  renderText text anns !! k = Some g → seg_text g ≠ [] →
  (offset ≤ length (seg_text g))%nat →
  let resolved :=
    getAbsoluteOffset (renderDom (renderText text anns)) (2 * k + 2)
                      (Z.of_nat offset) in
  resolved
  = Z.of_nat (length (renderedText (take k (renderText text anns))) + offset)
  ∧ slice text 0 resolved
    = renderedText (take k (renderText text anns)) ++ take offset (seg_text g).
Proof.
  intros Hall Hk Hne Hoff resolved. subst resolved.
  pose proof (renderText_roundtrip text anns Hall) as Hround.
  unfold getAbsoluteOffset, renderDom. cbn [treeWalker].
  rewrite (walkOffset_segment _ 0 k g _ 0 Hk Hne).
  split; [lia|].
  set (segs := renderText text anns) in *.
  rewrite slice_nonneg by lia. simpl. rewrite drop_0.
  rewrite <- (take_drop_middle segs k g Hk) in Hround.
  unfold renderedText in Hround |- *.
  rewrite fmap_app, concat_app in Hround. simpl in Hround.
  rewrite <- Hround.
  replace (Z.to_nat (0 + Z.of_nat (length (concat (seg_text <$> take k segs)))
                     + Z.of_nat offset))
    with (length (concat (seg_text <$> take k segs)) + offset)%nat by lia.
  rewrite take_app_add'; [|done].
  f_equal. rewrite take_app_le by done. done.
Qed.
End DomFacts.

(** *** What the stored spans look like after any sequence of actions *)

Section SessionFacts.
Context {char : Type}.
Implicit Types (h : Highlighter char) (d : AnnotationDoc char).
Local Open Scope Z_scope.

Lemma spansInText_live h :
  spansInText h → Forall (validSpan (text h)) (liveAnnotations h).
Proof.
  intros [Hdocs _]. apply Forall_forall. intros a Ha.
  apply elem_of_liveAnnotations in Ha as (k & d & Hk & _ & Hp & Hu & ->).
  by apply (Hdocs k d).
Qed.

Lemma displayed_length h :
  spansInText h →
  length (renderedText (renderText (text h) (liveAnnotations h)))
  = length (text h).
Proof.
  intros Hin. f_equal. apply renderText_roundtrip.
  eapply Forall_impl; [by apply spansInText_live|]. apply validSpan_ordered.
Qed.

Lemma handleMouseUp_spansInText h selectionObj :
  spansInText h →
  (∀ sel, selectionObj = Some sel →
          rangeInBounds (displayed h) (getRangeAt0 sel)) →
  spansInText (handleMouseUp h selectionObj
                 (if isEditing h then None else Some (displayed h))).
Proof.
  intros Hin Hrange. unfold handleMouseUp.
  destruct (isEditing h); [done|]. destruct (readOnly h); [done|]. simpl.
  destruct selectionObj as [sel|]; [|done].
  destruct (_ || _); [done|]. destruct (negb _); [done|].
  destruct (Hrange sel eq_refl) as [Hstart Hend].
  apply getAbsoluteOffset_displayed in Hstart, Hend.
  fold (displayed h) in Hstart, Hend.
  rewrite (displayed_length h Hin) in Hstart, Hend.
  unfold acceptOffsets.
  destruct (bool_decide_reflect
              (getAbsoluteOffset (displayed h) (startContainer (getRangeAt0 sel))
                 (startOffset (getRangeAt0 sel)) ≠ -1)) as [Hs|Hs]; [|done].
  destruct (bool_decide_reflect
              (getAbsoluteOffset (displayed h) (endContainer (getRangeAt0 sel))
                 (endOffset (getRangeAt0 sel)) ≠ -1)) as [He|He]; [|done].
  destruct (Z.ltb_spec
              (getAbsoluteOffset (displayed h) (startContainer (getRangeAt0 sel))
                 (startOffset (getRangeAt0 sel)))
              (getAbsoluteOffset (displayed h) (endContainer (getRangeAt0 sel))
                 (endOffset (getRangeAt0 sel)))) as [Hlt|Hge]; [|done].
  simpl. destruct Hin as [Hdocs _]. split; [done|]. simpl.
  intros s [= <-]. simpl. lia.
Qed.

Lemma handleAddAnnotation_spansInText h tagId now :
  spansInText h → spansInText (handleAddAnnotation h tagId now).
Proof.
  intros Hin. pose proof Hin as [Hdocs Hsel]. unfold handleAddAnnotation.
  destruct (selection h) as [sel|] eqn:Hs; [|done].
  destruct (effectiveUserId h) as [uid|] eqn:Hu; [|done].
  destruct (readOnly h); [done|].
  split; simpl; [|done].
  intros k d Hk Hp Hud. unfold addDoc in Hk.
  apply lookup_insert_Some in Hk as [[_ <-]|[_ Hk]]; simpl.
  - by apply Hsel.
  - apply (Hdocs k d Hk Hp). by rewrite <- Hu.
Qed.

Lemma updateDoc_spansInText h annotationId (f : AnnotationDoc char → AnnotationDoc char) c :
  (∀ d, paper_id (f d) = paper_id d ∧ user_id (f d) = user_id d
        ∧ doc_start_index (f d) = doc_start_index d
        ∧ doc_end_index (f d) = doc_end_index d) →
  spansInText h →
  updateDoc (annotationsColl h) annotationId f = inr c →
  spansInText (closeEditMenu (withColl h c)).
Proof.
  intros Hf [Hdocs Hsel]. unfold updateDoc.
  destruct (annotationsColl h !! annotationId) as [d0|] eqn:Hd0; [|done].
  intros [= <-]. split; simpl; [|done].
  intros k d Hk Hp Hu.
  apply lookup_insert_Some in Hk as [[<- <-]|[_ Hk]].
  - destruct (Hf d0) as (Hp' & Hu' & -> & ->).
    apply (Hdocs annotationId d0 Hd0); congruence.
  - by apply (Hdocs k d).
Qed.

Lemma dispatch_spansInText h (ev : Event) :
  spansInText h →
  match ev with
  | MouseUp (Some sel) => rangeInBounds (displayed h) (getRangeAt0 sel)
  | _ => True
  end →
  spansInText (dispatch h ev).
Proof.
  intros Hin Hev. destruct ev as [sel|tagId now|aid now|aid tagId now]; simpl.
  - apply handleMouseUp_spansInText; [done|]. by intros s ->.
  - by apply handleAddAnnotation_spansInText.
  - unfold handleDeleteAnnotation.
    destruct (_ || _); [done|].
    destruct (updateDoc _ _ _) as [e|c] eqn:Hupd; [done|].
    by apply (updateDoc_spansInText h aid (setDeleted now) c).
  - unfold handleChangeTag.
    destruct (_ || _); [done|].
    destruct (updateDoc _ _ _) as [e|c] eqn:Hupd; [done|].
    by apply (updateDoc_spansInText h aid (setTag tagId now) c).
Qed.

(** X22: starting from a component whose stored spans and pending
    selection lie within the text, any sequence of mouse-ups, tag choices,
    deletions and tag changes leaves it so, as long as every mouse-up
    carries a range that lies within the nodes then displayed: every
    annotation the component ever stores has [0 ≤ start < end ≤ length text],
    although no handler compares an offset with the length of the text. *)
Theorem session_spans_in_text (evs : list Event) : ∀ h,
  spansInText h → rangesInBounds h evs →
  spansInText (foldl dispatch h evs)
  ∧ Forall (validSpan (text (foldl dispatch h evs)))
           (liveAnnotations (foldl dispatch h evs)).
Proof.
  induction evs as [|ev evs IH]; intros h Hin Hranges.
  - split; [done|]. by apply spansInText_live.
  - destruct Hranges as [Hev Hrest]. cbn [foldl].
    apply IH; [|done]. apply dispatch_spansInText; [done|].
    by destruct ev as [[sel|]| | |].
Qed.
End SessionFacts.

(** *** DatabaseManagementModal *)

Lemma lookup_foldr_delete {A} (m : gmap string A) (ks : list string) k :
  foldr delete m ks !! k = if decide (k ∈ ks) then None else m !! k.
Proof.
  induction ks as [|x ks IH]; cbn [foldr].
  - by rewrite decide_False by apply not_elem_of_nil.
  - rewrite lookup_delete, IH.
    destruct (decide (x = k)) as [->|Hne].
    + by rewrite decide_True by left.
    + destruct (decide (k ∈ ks)).
      * by rewrite decide_True by (by right).
      * rewrite decide_False; [done|].
        intros [->|?]%elem_of_cons; done.
Qed.

Section DatabaseFacts.
Context {char : Type}.
Implicit Types (db : Database char) (d : AnnotationDoc char).

Lemma elem_of_paper_annotations (m : gmap string (AnnotationDoc char))
    paperId k :
  k ∈ (filter (λ kd : string * AnnotationDoc char, paper_id kd.2 = paperId)
              (map_to_list m)).*1
  ↔ ∃ d, m !! k = Some d ∧ paper_id d = paperId.
Proof.
  rewrite list_elem_of_fmap. split.
  - intros ([k' d] & -> & Hin). apply list_elem_of_filter in Hin as [Hp Hin].
    apply elem_of_map_to_list in Hin. by exists d.
  - intros (d & Hk & Hp). exists (k, d). split; [done|].
    apply list_elem_of_filter. split; [done|]. by apply elem_of_map_to_list.
Qed.

(** The number of annotations of a paper. *)
Lemma handleDeletePaper_unfold batchLimit db paperId :
  handleDeletePaper batchLimit db paperId true
  = let ids := (filter (λ kd : string * AnnotationDoc char,
                          paper_id kd.2 = paperId)
                       (map_to_list (annotationsOf db))).*1 in
    let db1 := {| papersColl := delete paperId (papersColl db);
                  annotationsOf := annotationsOf db |} in
    if decide (0 < length ids) then
      if decide (length ids ≤ batchLimit)
      then ({| papersColl := delete paperId (papersColl db);
               annotationsOf := foldr delete (annotationsOf db) ids |},
            alertSuccess)
      else (db1, alertFailure)
    else (db1, alertSuccess).
Proof.
  unfold handleDeletePaper, commitDeletes. simpl.
  repeat case_decide; done.
Qed.

(** X23: a confirmed paper deletion whose batch is accepted removes the
    paper and exactly the annotations of that paper: annotations of other
    papers and all other papers are untouched. *)
Theorem handleDeletePaper_cascade batchLimit db paperId :
  length (filter (λ kd : string * AnnotationDoc char, paper_id kd.2 = paperId)
                 (map_to_list (annotationsOf db))) ≤ batchLimit →
  ∃ db', handleDeletePaper batchLimit db paperId true = (db', alertSuccess)
    ∧ papersColl db' = delete paperId (papersColl db)
    ∧ ∀ k, annotationsOf db' !! k
           = match annotationsOf db !! k with
             | Some d => if decide (paper_id d = paperId) then None else Some d
             | None => None
             end.
Proof.
  intros Hlimit. rewrite handleDeletePaper_unfold. cbv zeta.
  rewrite length_fmap.
  case_decide as Hpos.
  - rewrite decide_True by done. eexists. split; [done|]. split; [done|].
    intros k. simpl. rewrite lookup_foldr_delete.
    destruct (annotationsOf db !! k) as [d|] eqn:Hk.
    + destruct (decide (paper_id d = paperId)) as [Hp|Hp].
      * rewrite decide_True; [done|].
        apply elem_of_paper_annotations. by exists d.
      * rewrite decide_False; [done|].
        intros (d' & Hk' & Hp')%elem_of_paper_annotations. congruence.
    + by case_decide.
  - eexists. split; [done|]. split; [done|]. intros k. simpl.
    destruct (annotationsOf db !! k) as [d|] eqn:Hk; [|done].
    rewrite decide_False; [done|]. intros Hp.
    assert (k ∈ (filter (λ kd : string * AnnotationDoc char,
                           paper_id kd.2 = paperId)
                        (map_to_list (annotationsOf db))).*1) as Hin.
    { apply elem_of_paper_annotations. by exists d. }
    destruct (filter _ _) as [|? ?]; [by apply elem_of_nil in Hin|].
    simpl in Hpos. lia.
Qed.

(** X24: the deletion is not atomic: the paper is deleted first, and when
    the batch of annotation deletions is refused because it is larger than
    the store accepts, the paper is gone while every annotation, its own
    included, is still stored, and a failure is reported. *)
Theorem handleDeletePaper_not_atomic batchLimit db paperId :
  batchLimit <
    length (filter (λ kd : string * AnnotationDoc char, paper_id kd.2 = paperId)
                   (map_to_list (annotationsOf db))) →
  handleDeletePaper batchLimit db paperId true
  = ({| papersColl := delete paperId (papersColl db);
        annotationsOf := annotationsOf db |}, alertFailure).
Proof.
  intros Hlimit. rewrite handleDeletePaper_unfold. cbv zeta.
  rewrite length_fmap.
  rewrite decide_True by lia. by rewrite decide_False by lia.
Qed.

(** X25: clearing the database needs the exact confirmation text; with it,
    and a batch that is accepted, every annotation is deleted, and so are
    the papers listed in the modal, and only those. *)
Theorem handleNukeDatabase_clears batchLimit db (papers : list Paper) input :
  (input ≠ Some "DELETE ALL DATA" →
   handleNukeDatabase batchLimit db papers input = (db, []))
  ∧ (input = Some "DELETE ALL DATA" →
     length papers + size (annotationsOf db) ≤ batchLimit →
     ∃ db' alerts,
       handleNukeDatabase batchLimit db papers input = (db', alerts)
       ∧ last alerts = Some alertSuccess
       ∧ annotationsOf db' = ∅
       ∧ ∀ k, papersColl db' !! k
              = if decide (k ∈ paperKey <$> papers) then None
                else papersColl db !! k).
Proof.
  split.
  - intros Hne. unfold handleNukeDatabase. by rewrite bool_decide_false.
  - intros -> Hlimit. unfold handleNukeDatabase, commitDeletes.
    rewrite bool_decide_true by done.
    cbv zeta. rewrite !length_fmap, length_map_to_list.
    rewrite decide_True by done.
    eexists _, _. split; [done|]. split; [by rewrite last_snoc|].
    simpl. split.
    + apply map_eq. intros k. rewrite lookup_foldr_delete, lookup_empty.
      case_decide as Hk; [done|].
      destruct (annotationsOf db !! k) as [d|] eqn:Hd; [|done].
      exfalso. apply Hk. apply list_elem_of_fmap. exists (k, d).
      split; [done|]. by apply elem_of_map_to_list.
    + intros k. apply lookup_foldr_delete.
Qed.
End DatabaseFacts.

(** *** Instances of the properties above on concrete inputs *)

Lemma localGroupCounts_total_witness :
  sum_list_with gc_value
    (localGroupCounts sampleTags
       [docWithTag "t1"; docWithTag "t2"; docWithTag "t2"; docWithTag "gone"])
  = 3.
Proof.
  rewrite (localGroupCounts_total (char := ascii) sampleTags).
  - by vm_compute.
  - apply (bool_decide_unpack _). by vm_compute.
Defined.

Lemma renderText_segments_nonempty_witness :
  Forall (λ g, seg_text g ≠ []) (renderText sampleText overlappingAnns).
Proof.
  apply renderText_segments_nonempty.
  repeat constructor; simpl; lia.
Defined.

Lemma renderText_disjoint_exact_witness :
  filter (λ g, seg_type g = highlight) (renderText sampleText sampleAnns)
  = [ mkSegment (chars "23") highlight "a" (Some "tagA");
      mkSegment (chars "67") highlight "b" (Some "tagB") ].
Proof.
  rewrite renderText_disjoint_exact; [done|].
  simpl. repeat split; lia.
Defined.

Lemma renderText_keys_distinct_witness :
  NoDup (seg_id <$> renderText sampleText overlappingAnns).
Proof.
  apply renderText_keys_distinct.
  - repeat constructor; simpl; lia.
  - apply (bool_decide_unpack _). by vm_compute.
  - intros b n Hb Heq. unfold textId in Heq.
    apply elem_of_cons in Hb as [->|Hb]; [discriminate Heq|].
    apply list_elem_of_singleton in Hb as ->. discriminate Heq.
Defined.

Lemma renderText_highlights_covered_witness :
  highlightMask (renderText sampleText overlappingAnns)
  = [true; true; true; true; true; true; true; true; false; false].
Proof.
  rewrite renderText_highlights_covered; [done|].
  repeat constructor; simpl; lia.
Defined.

Lemma readOnly_inert_witness :
  handleAddAnnotation readOnlyHighlighter "tagA" "t1" = readOnlyHighlighter
  ∧ handleChangeTag readOnlyHighlighter "a1" "tagB" "t2"
    = inr readOnlyHighlighter.
Proof.
  destruct (readOnly_inert readOnlyHighlighter eq_refl) as (_ & Hadd & _ & Htag).
  split; [apply Hadd|apply Htag].
Defined.

Lemma handleAddAnnotation_stores_once_witness :
  ∃ newId d,
    annotationsColl (handleAddAnnotation selectingHighlighter "tagA" "t1")
    = <[newId := d]> (annotationsColl selectingHighlighter)
    ∧ doc_start_index d = 2%Z ∧ doc_end_index d = 5%Z.
Proof.
  destruct (handleAddAnnotation_stores_once selectingHighlighter
              sampleSelection "u1" "tagA" "t1" eq_refl eq_refl eq_refl)
    as (newId & d & _ & Hcoll & Hs & He & _).
  by exists newId, d.
Defined.

Lemma handleDeleteAnnotation_soft_witness :
  ∃ h', handleDeleteAnnotation (highlighterWith sampleDoc) "a1" "t1" = inr h'
        ∧ annotationsColl h' !! "a1" = Some (setDeleted "t1" sampleDoc).
Proof.
  pose proof (handleDeleteAnnotation_soft (highlighterWith sampleDoc) "a1" "t1"
                eq_refl eq_refl) as Hsoft.
  simpl in Hsoft. rewrite lookup_singleton_eq in Hsoft.
  destruct Hsoft as (h' & Hrun & Hdoc & _). by exists h'.
Defined.

Lemma getAbsoluteOffset_points_into_text_witness :
  getAbsoluteOffset (renderDom (renderText sampleText sampleAnns)) 6 1 = 5%Z
  ∧ slice sampleText 0 5 = chars "01234".
Proof.
  destruct (getAbsoluteOffset_points_into_text sampleText sampleAnns 2
              (mkSegment (chars "45") text_ "text-4" None) 1)
    as [Hres Hslice]; [|done|done|simpl; lia|].
  - repeat constructor; simpl; lia.
  - split; [exact Hres|]. rewrite Hres in Hslice. exact Hslice.
Defined.

Lemma session_spans_in_text_witness :
  Forall (validSpan (text (foldl dispatch emptyHighlighter sampleEvents)))
         (liveAnnotations (foldl dispatch emptyHighlighter sampleEvents)).
Proof.
  apply (session_spans_in_text sampleEvents emptyHighlighter).
  - split.
    + intros k d Hk.
      change (annotationsColl emptyHighlighter)
        with (∅ : gmap string (AnnotationDoc ascii)) in Hk.
      by rewrite lookup_empty in Hk.
    + by intros sel.
  - simpl. split; [|done]. split.
    + intros k n Hk Hn.
      change (treeWalker (displayed emptyHighlighter))
        with [(2%nat, sampleText)] in Hk.
      destruct k as [|k]; [|simpl in Hk; by rewrite lookup_nil in Hk].
      injection Hk as <-. simpl. lia.
    + intros k n Hk Hn.
      change (treeWalker (displayed emptyHighlighter))
        with [(2%nat, sampleText)] in Hk.
      destruct k as [|k]; [|simpl in Hk; by rewrite lookup_nil in Hk].
      injection Hk as <-. simpl. lia.
Defined.

Lemma handleDeletePaper_cascade_witness :
  ∃ db', handleDeletePaper 500 sampleDatabase "p1" true = (db', alertSuccess)
         ∧ papersColl db' = delete "p1" (papersColl sampleDatabase).
Proof.
  destruct (handleDeletePaper_cascade 500 sampleDatabase "p1")
    as (db' & Hrun & Hpapers & _).
  - simpl. rewrite map_to_list_singleton. simpl. lia.
  - by exists db'.
Defined.

Lemma handleDeletePaper_not_atomic_witness :
  handleDeletePaper 0 sampleDatabase "p1" true
  = ({| papersColl := delete "p1" (papersColl sampleDatabase);
        annotationsOf := annotationsOf sampleDatabase |}, alertFailure).
Proof.
  apply handleDeletePaper_not_atomic.
  simpl. rewrite map_to_list_singleton. simpl. lia.
Defined.
